(** * Transformation.py: normalisation, identity resolution and duplicate merge

    A shallow embedding of [src/Library/Transformation.py] and the
    properties of it that the specification states.

    Conventions of the embedding.
    - A Python [str] is a [string]; the characters are the 8-bit characters
      of Rocq's [ascii], with the ASCII case mapping for [lower] and
      [capitalize] and the ASCII digits for [\D].
    - A cell of a pandas frame is a [value]: null ([NaN], [None], [NaT]),
      a string, or a timestamp.  An argument that the source types as [str]
      and tests with [pd.isnull] is an [option string].
    - A Python exception is the [Raise] case of [result].
    - [re.search] is a backtracking matcher over the fragment of the regular
      expression syntax that the patterns of the source use.
    - A frame is its column names and its rows, every row holding a cell
      for each column and no other; the label of a row is its position.
    - Two things are pandas' and Python's own and are not modelled: the
      routine that sorts the frame, of which only the result is known to
      be sorted, and the identity of the objects that stand for missing
      values.  The merge engine is stated over every such routine and
      every outcome of a test by identity (class [Pandas]).
    - A request of [src/Library/Extraction.py] to the search API is the
      value of its "after" field, and the API is the function that answers
      it. *)

From Stdlib Require Import Ascii String NArith ZArith Permutation Sorted.
From Equations Require Import Equations.
From stdpp Require Import base option list gmap strings fin_maps.

Local Open Scope stdpp_scope.

(* ===================================================================== *)
(** ** Exceptions *)

Inductive exn := ValueError | AttributeError | TypeError | KeyError | IndexError.

Inductive result (A : Type) :=
  | Ok (a : A)
  | Raise (e : exn).
Arguments Ok {A} a.
Arguments Raise {A} e.

#[global] Instance exn_eq_dec : EqDecision exn.
Proof. solve_decision. Defined.

#[global] Instance result_eq_dec {A} `{EqDecision A} : EqDecision (result A).
Proof. solve_decision. Defined.

#[global] Instance result_ret : MRet result := fun _ a => Ok a.
#[global] Instance result_bind : MBind result := fun _ _ f m =>
  match m with
  | Ok a => f a
  | Raise e => Raise e
  end.

Definition is_ok {A} (m : result A) : bool :=
  match m with Ok _ => true | Raise _ => false end.

(* ===================================================================== *)
(** ** Python strings *)

Module Py.

Definition code (c : ascii) : N := N_of_ascii c.

Definition between (lo hi : N) (c : ascii) : bool :=
  ((lo <=? code c) && (code c <=? hi))%N.

(** [[a-z]] *)
Definition is_lower : ascii → bool := between 97 122.
(** [[A-Z]] *)
Definition is_upper : ascii → bool := between 65 90.
(** [\d] and [\D] *)
Definition is_digit : ascii → bool := between 48 57.
Definition not_digit (c : ascii) : bool := negb (is_digit c).
(** [.] without [re.DOTALL]: every character but the line feed *)
Definition dot (c : ascii) : bool := negb (Ascii.eqb c "010").

Definition lower_char (c : ascii) : ascii :=
  if is_upper c then ascii_of_N (code c + 32) else c.
Definition upper_char (c : ascii) : ascii :=
  if is_lower c then ascii_of_N (code c - 32) else c.

(** [s.lower()] *)
Fixpoint lower (s : string) : string :=
  match s with
  | EmptyString => EmptyString
  | String c s' => String (lower_char c) (lower s')
  end.

(** [s.capitalize()]: first character upper case, the rest lower case *)
Definition capitalize (s : string) : string :=
  match s with
  | EmptyString => EmptyString
  | String c s' => String (upper_char c) (lower s')
  end.

(** [s.lstrip(c)] for a single character [c] *)
Fixpoint lstrip (c : ascii) (s : string) : string :=
  match s with
  | String c' s' => if Ascii.eqb c' c then lstrip c s' else s
  | EmptyString => EmptyString
  end.

(** [s[:n]] *)
Fixpoint take (n : nat) (s : string) : string :=
  match n, s with
  | S n', String c s' => String c (take n' s')
  | _, _ => EmptyString
  end.

(** [s[n:]] *)
Fixpoint drop (n : nat) (s : string) : string :=
  match n, s with
  | S n', String _ s' => drop n' s'
  | _, _ => s
  end.

(** [sep.join(l)] on a list of strings *)
Fixpoint join (sep : string) (l : list string) : string :=
  match l with
  | [] => ""
  | [x] => x
  | x :: l' => x +:+ sep +:+ join sep l'
  end.

(** [c in s] for a character *)
Fixpoint has_char (c : ascii) (s : string) : bool :=
  match s with
  | EmptyString => false
  | String c' s' => Ascii.eqb c' c || has_char c s'
  end.

(** every character of [s] satisfies [p] *)
Fixpoint all_chars (p : ascii → bool) (s : string) : bool :=
  match s with
  | EmptyString => true
  | String c s' => p c && all_chars p s'
  end.

(** [s.split(sep)] for a separator of one character *)
Fixpoint split (sep : ascii) (s : string) : list string :=
  match s with
  | EmptyString => [""]
  | String c s' =>
      if Ascii.eqb c sep then "" :: split sep s'
      else match split sep s' with
           | piece :: pieces => String c piece :: pieces
           | [] => [String c ""]
           end
  end.

End Py.

(* ===================================================================== *)
(** ** The fragment of [re] used by the source

    The source has three patterns: the default of [found_emails] (a "<",
    a group holding any run of ".", a ">"), the non-digit class of
    [fix_phone_numbers] and the default of [name_from_email] (two groups of
    one or more of "a" to "z" with a "_" between them): literals, character classes, greedy repetition of
    a class, concatenation and capturing groups that are not nested. *)

Module Re.

Inductive regex :=
  | Chr (c : ascii)            (* a literal character *)
  | Cls (p : ascii → bool)     (* one character of a class *)
  | Star (p : ascii → bool)    (* [p*], greedy *)
  | Plus (p : ascii → bool)    (* [p+], greedy *)
  | Seq (r1 r2 : regex)
  | Grp (r : regex).           (* [( r )] *)

(** Greedy repetition: take the longest run first and give back one
    character at a time while the rest of the pattern fails. *)
Fixpoint star_k {A} (p : ascii → bool) (s : string)
    (k : string → option A) : option A :=
  match s with
  | String c s' =>
      if p c then
        match star_k p s' k with
        | Some m => Some m
        | None => k s
        end
      else k s
  | EmptyString => k s
  end.

(** What a group captured: the part of [s] in front of the rest [s']. *)
Definition consumed (s s' : string) : string :=
  Py.take (String.length s - String.length s') s.

(** [match_k r s gs k]: match [r] at the start of [s]; [gs] are the
    groups closed so far, [k] matches what follows [r]. *)
Fixpoint match_k {A} (r : regex) (s : string) (gs : list string)
    (k : string → list string → option A) : option A :=
  match r with
  | Chr c =>
      match s with
      | String c' s' => if Ascii.eqb c' c then k s' gs else None
      | EmptyString => None
      end
  | Cls p =>
      match s with
      | String c' s' => if p c' then k s' gs else None
      | EmptyString => None
      end
  | Star p => star_k p s (fun s' => k s' gs)
  | Plus p =>
      match s with
      | String c' s' => if p c' then star_k p s' (fun s'' => k s'' gs) else None
      | EmptyString => None
      end
  | Seq r1 r2 => match_k r1 s gs (fun s' gs' => match_k r2 s' gs' k)
  | Grp r1 => match_k r1 s gs (fun s' gs' => k s' (gs' ++ [consumed s s']))
  end.

(** [re.match(r, s)]: the groups of the match at the start of [s] *)
Definition match_here (r : regex) (s : string) : option (list string) :=
  match_k r s [] (fun _ gs => Some gs).

(** [re.search(r, s)]: the groups of the leftmost match, [None] when the
    pattern matches nowhere *)
Fixpoint search (r : regex) (s : string) : option (list string) :=
  match match_here r s with
  | Some gs => Some gs
  | None =>
      match s with
      | String _ s' => search r s'
      | EmptyString => None
      end
  end.

(** [m.group(n)] for [n >= 1] on the result of [search]; a [None] result
    has no attribute [group] *)
Definition group (m : option (list string)) (n : nat) : result string :=
  match m with
  | None => Raise AttributeError
  | Some gs =>
      match gs !! (n - 1) with
      | Some g => Ok g
      | None => Raise IndexError
      end
  end.

(** [re.sub(p, repl, s)] for a pattern that is one character class *)
Fixpoint sub_class (p : ascii → bool) (repl : string) (s : string) : string :=
  match s with
  | EmptyString => EmptyString
  | String c s' =>
      if p c then repl +:+ sub_class p repl s'
      else String c (sub_class p repl s')
  end.

End Re.

(** The default pattern of [found_emails]: "<", the group of ".*", ">" *)
Definition email_pattern : Re.regex :=
  Re.Seq (Re.Chr "<") (Re.Seq (Re.Grp (Re.Star Py.dot)) (Re.Chr ">")).

(** The default pattern of [name_from_email]: "([a-z]+)_([a-z]+)" *)
Definition name_pattern : Re.regex :=
  Re.Seq (Re.Grp (Re.Plus Py.is_lower))
         (Re.Seq (Re.Chr "_") (Re.Grp (Re.Plus Py.is_lower))).

(* ===================================================================== *)
(** ** Cells and rows *)

(** A cell of a frame.  [VNull] is pandas' missing value ([NaN], [None],
    [NaT]); [VTime t] is the timestamp of instant [t]. *)
Inductive value :=
  | VNull
  | VStr (s : string)
  | VTime (t : Z).

#[global] Instance value_eq_dec : EqDecision value.
Proof. solve_decision. Defined.

(** [pd.isnull(v)] and [pd.notnull(v)] *)
Definition isnull (v : value) : bool :=
  match v with VNull => true | _ => false end.
Definition notnull (v : value) : bool := negb (isnull v).

(** [v == ""] *)
Definition is_empty_str (v : value) : bool :=
  match v with VStr s => String.eqb s "" | _ => false end.

(** [a + b]: defined on two strings only *)
Definition py_add (a b : value) : result value :=
  match a, b with
  | VStr x, VStr y => Ok (VStr (x +:+ y))
  | _, _ => Raise TypeError
  end.

(** A row of a frame (a pandas [Series] indexed by the column names). *)
Abbreviation row := (gmap string value).

(** [row[column]] *)
Definition getitem (r : row) (column : string) : result value :=
  match r !! column with
  | Some v => Ok v
  | None => Raise KeyError
  end.

(* ===================================================================== *)
(** ** Location Resolver *)

Definition load_country_city_database : list (string * list string) :=
  [ ("England", ["Plymouth"; "Milton Keynes"; "Oxford"; "London"; "Winchester"]);
    ("Ireland", ["Waterford"; "Limerick"; "Dublin"; "Cork"]) ].

(** The two nested loops of [country_recognition]: the state is
    [(city_found, country_found)]; [country_found] is unbound in the source
    until [city_found] is set and is read only then. *)
Definition scan_cities (place country : string) (st : bool * string)
    (cities : list string) : bool * string :=
  foldl (fun st city =>
           if String.eqb (Py.lower place) (Py.lower city)
           then (true, country) else st)
        st cities.

Definition scan_locations (locations : list (string * list string))
    (place : string) : bool * string :=
  foldl (fun st entry => scan_cities place entry.1 st entry.2)
        (false, "") locations.

(** [country_recognition] over a given table *)
Definition country_recognition_in (locations : list (string * list string))
    (place : option string) : string * string :=
  match place with
  | None => ("Nan", "Nan")
  | Some place =>
      if bool_decide (place ∈ locations.*1) then (place, "Unknown")
      else
        let '(city_found, country_found) := scan_locations locations place in
        if city_found then (country_found, place)
        else ("Unknown", "Not recognized")
  end.

Definition country_recognition (place : option string) : string * string :=
  country_recognition_in load_country_city_database place.

(* ===================================================================== *)
(** ** Email Extractor *)

(** The result of [found_emails] together with the lines it prints. *)
Definition found_emails_with (pattern : Re.regex) (raw_email : option string)
    : list string * result string :=
  match raw_email with
  | None => ([], Ok "")
  | Some raw =>
      match Re.group (Re.search pattern raw) 1 with
      | Raise AttributeError => (["Incorrect pattern, returning input"], Ok raw)
      | r => ([], r)
      end
  end.

Definition found_emails (raw_email : option string) : list string * result string :=
  found_emails_with email_pattern raw_email.

(* ===================================================================== *)
(** ** Phone Normalizer *)

Definition codes : gmap string string :=
  <["Great Britain" := "+44"]> (<["Ireland" := "+353"]> ∅).

Definition country_codes_database (country : option string) : string :=
  match country ≫= (codes !!.) with
  | Some code => code
  | None => ""
  end.

Definition fix_phone_numbers (raw_phone country : option string) : string :=
  match raw_phone with
  | None => "Nan"
  | Some raw_phone =>
      let country :=
        if bool_decide (country ∈ [Some "England"; Some "Wales";
                                   Some "Northern Ireland"; Some "Scotland"])
        then Some "Great Britain" else country in
      let phone_code := country_codes_database country in
      let raw_phone := Re.sub_class Py.not_digit "" raw_phone in
      let phone_numbers := Py.lstrip "0" raw_phone in
      "(" +:+ phone_code +:+ ") " +:+ Py.take 4 phone_numbers
          +:+ " " +:+ Py.drop 4 phone_numbers
  end.

(* ===================================================================== *)
(** ** Identity Resolver *)

Definition name_from_email_with (pattern : Re.regex) (email : string)
    : result string :=
  let name := Re.search pattern email in
  first ← Re.group name 1;
  last ← Re.group name 2;
  Ok (Py.capitalize first +:+ " " +:+ Py.capitalize last).

Definition name_from_email (email : string) : result string :=
  name_from_email_with name_pattern email.

(** [generate_name]; the condition is evaluated left to right with the
    short-circuit of [and] and [or], so that a missing column raises where
    the source reads it. *)
Definition generate_name (r : row) : result string :=
  firstname ← getitem r "firstname";
  both_null ←
    (if isnull firstname
     then lastname ← getitem r "lastname"; Ok (isnull lastname)
     else Ok false);
  both_missing ←
    (if both_null : bool then Ok true
     else if is_empty_str firstname
          then lastname ← getitem r "lastname"; Ok (is_empty_str lastname)
          else Ok false);
  if both_missing : bool then
    raw_email ← getitem r "raw_email";
    if is_empty_str raw_email || isnull raw_email then Ok ""
    else match raw_email with
         | VStr email => name_from_email email
         | _ => Raise TypeError
         end
  else
    first_space ← py_add firstname (VStr " ");
    lastname ← getitem r "lastname";
    full ← py_add first_space lastname;
    match full with
    | VStr name => Ok name
    | _ => Raise TypeError
    end.

(* ===================================================================== *)
(** ** Merge Engine *)

(** Every row holds a cell for each column of the frame, and no other. *)
Definition shaped (columns : list string) (data : list row) : bool :=
  forallb (fun r => bool_decide (dom r =@{gset string} list_to_set columns)) data.

(** A frame: its column names and its rows, of that shape.  The label of a
    row is its position in [data] (the [RangeIndex] that [load_df_from_csv]
    gives). *)
Record DataFrame := mkDataFrame {
  columns : list string;
  data : list row;
  shape : shaped columns data = true
}.

(** [pd.to_datetime] on one cell.  The date parser is pandas' and is not
    re-implemented: a cell whose content pandas reads as the instant [t] is
    given as [VTime t], a missing cell becomes [NaT], and [VStr s] in this
    column stands for a text that pandas cannot read as a date, on which
    [to_datetime] raises. *)
Definition to_datetime (v : value) : result value :=
  match v with
  | VNull => Ok VNull
  | VTime t => Ok (VTime t)
  | VStr _ => Raise ValueError
  end.

(** [pd.to_datetime] on the cells of the column, from the first row on. *)
Fixpoint to_datetime_column (rows : list row) : result (list row) :=
  match rows with
  | [] => Ok []
  | r :: rest =>
      v ← getitem r "createdAt";
      t ← to_datetime v;
      rest' ← to_datetime_column rest;
      Ok (<["createdAt" := t]> r :: rest')
  end.

(** [df['createdAt'] = pd.to_datetime(df['createdAt'])]: [df['createdAt']]
    raises [KeyError] on a frame without that column, with rows or
    without. *)
Definition convert_createdAt (df : DataFrame) : result (list row) :=
  if bool_decide ("createdAt" ∈ columns df) then to_datetime_column (data df)
  else Raise KeyError.

(** The sort key of a labelled row. *)
Definition created (ir : nat * row) : value :=
  default VNull (ir.2 !! "createdAt").

(** [a] may stand before [b] in descending order: the later instant first,
    missing instants last.  (No string is left in the column after
    [to_datetime]; strings are placed between the two.) *)
Definition newer_or_equal (a b : value) : bool :=
  match a, b with
  | _, VNull => true
  | VNull, _ => false
  | VTime x, VTime y => (y <=? x)%Z
  | VTime _, VStr _ => true
  | VStr _, VTime _ => false
  | VStr _, VStr _ => true
  end.

(** [a] is listed before [b]: at least as recent. *)
Definition listed_before (a b : nat * row) : Prop :=
  newer_or_equal (created a) (created b) = true.

(** What the program leaves to pandas and to Python.

    [df.sort_values(by=['createdAt'], ascending=False)] sorts with pandas'
    default routine, which is not stable: rows with the same instant come
    in an order that the routine chooses.  All that is known of
    [sort_values] is that it gives the same rows, the later instant first
    and the missing instants last.

    The test [in] on the list of industries compares by identity before
    equality, and a missing value is not equal to itself: it is found in a
    list only when the list holds the very same object (pandas keeps one
    object for the missing cells of a column of texts, and makes an object
    per cell for a column of numbers).  Objects are not part of this
    model; [nan_found index] says whether the test at the row [index],
    whose industry is missing, meets its own object in the list. *)
Class Pandas := {
  sort_values : list (nat * row) → list (nat * row);
  sort_values_perm : ∀ l, sort_values l ≡ₚ l;
  sort_values_sorted : ∀ l, StronglySorted listed_before (sort_values l);
  nan_found : nat → bool
}.

(** A sorting routine for the examples: insertion, which leaves rows with
    the same instant in the order of the frame. *)
Fixpoint insert_desc (x : nat * row) (l : list (nat * row)) : list (nat * row) :=
  match l with
  | [] => [x]
  | y :: l' =>
      if newer_or_equal (created x) (created y) then x :: l
      else y :: insert_desc x l'
  end.

Definition insertion_sort (l : list (nat * row)) : list (nat * row) :=
  foldr insert_desc [] l.

(** [df.iterrows()] on the sorted frame: label and row, most recent first *)
Definition iterrows {P : Pandas} (rows : list row) : list (nat * row) :=
  sort_values (imap (fun index r => (index, r)) rows).

(** [first_records]: a Python dict keeps its keys in insertion order.
    An entry is the pair of the label of the latest record and of the list
    of industries. *)
Record records := mkRecords {
  keys : list string;
  entries : gmap string (nat * list value)
}.

Definition no_records : records := mkRecords [] ∅.

(** [first_records.values()] *)
Definition values (fr : records) : list (nat * list value) :=
  omap (fun k => entries fr !! k) (keys fr).

Definition missing (v : value) : bool := isnull v || is_empty_str v.
Definition present (v : value) : bool := notnull v && negb (is_empty_str v).

(** One turn of the loop over [df.columns]. *)
Definition backfill_column (r : row) (index_of_latest : nat)
    (frame : list row) (column : string) : list row :=
  if String.eqb column "industry" then frame
  else
    match frame !! index_of_latest ≫= (.!! column), r !! column with
    | Some latest, Some older =>
        if missing latest && present older
        then alter (<[column := older]>) index_of_latest frame
        else frame
    | _, _ => frame
    end.

(** [row['industry'] in first_records[name][1]] at the row [index]: a text
    or an instant is found when the list holds an equal one, a missing
    value when the list holds its object. *)
Definition contains {P : Pandas} (index : nat) (industry : value)
    (industries : list value) : bool :=
  match industry with
  | VNull => nan_found index && bool_decide (VNull ∈ industries)
  | _ => bool_decide (industry ∈ industries)
  end.

(** One turn of the loop over the rows. *)
Definition merge_step {P : Pandas} (cols : list string) (st : list row * records)
    (ir : nat * row) : result (list row * records) :=
  let '(frame, first_records) := st in
  let '(index, r) := ir in
  name ← generate_name r;
  if String.eqb name "" then Ok st
  else
    match entries first_records !! name with
    | None =>
        industry ← getitem r "industry";
        Ok (frame,
            mkRecords (keys first_records ++ [name])
                      (<[name := (index, [industry])]> (entries first_records)))
    | Some (index_of_latest, industries) =>
        let frame' := foldl (backfill_column r index_of_latest) frame cols in
        industry ← getitem r "industry";
        if contains index industry industries then Ok (frame', first_records)
        else Ok (frame',
                 mkRecords (keys first_records)
                           (<[name := (index_of_latest, industry :: industries)]>
                              (entries first_records)))
    end.

Fixpoint merge_pass {P : Pandas} (cols : list string) (rows : list (nat * row))
    (st : list row * records) : result (list row * records) :=
  match rows with
  | [] => Ok st
  | ir :: rest => st' ← merge_step cols st ir; merge_pass cols rest st'
  end.

(** The strings of a list of cells; [";".join] raises on any other cell. *)
Fixpoint strings_of (l : list value) : result (list string) :=
  match l with
  | [] => Ok []
  | VStr s :: l' => ss ← strings_of l'; Ok (s :: ss)
  | _ :: _ => Raise TypeError
  end.

(** [concat_industries]: the frame after the updates and the labels. *)
Fixpoint concat_industries (frame : list row) (vals : list (nat * list value))
    : result (list row * list nat) :=
  match vals with
  | [] => Ok (frame, [])
  | (index, industries) :: rest =>
      frame' ←
        (if 1 <? length industries
         then ss ← strings_of industries;
              Ok (alter (<["industry" := VStr (";" +:+ Py.join ";" ss)]>) index frame)
         else Ok frame);
      '(frame'', indexes) ← concat_industries frame' rest;
      Ok (frame'', index :: indexes)
  end.

(** [df.loc[indexes, :]] *)
Fixpoint loc (frame : list row) (indexes : list nat) : result (list (nat * row)) :=
  match indexes with
  | [] => Ok []
  | i :: rest =>
      match frame !! i with
      | Some r => out ← loc frame rest; Ok ((i, r) :: out)
      | None => Raise KeyError
      end
  end.

(** [duplicate_management]: the rows of the result with their labels. *)
Definition duplicate_management {P : Pandas} (df : DataFrame)
    : result (list (nat * row)) :=
  rows ← convert_createdAt df;
  '(frame, first_records) ← merge_pass (columns df) (iterrows rows) (rows, no_records);
  '(frame', indexes) ← concat_industries frame (values first_records);
  loc frame' indexes.

(* ===================================================================== *)
(** ** Extraction.py: the collection of the contacts *)

(** The answer of the search API to one request: [res.json()] with its
    fields "total" and "results". *)
Record response (A : Type) := mkResponse {
  resp_total : nat;
  resp_results : list A
}.
Arguments mkResponse {A} _ _.
Arguments resp_total {A} _.
Arguments resp_results {A} _.

Definition max_per_page : nat := 100.

(** The [while] loop of [contact_collection].  [post after] is the answer
    to the request that [parameters_for_search] builds for [after]; the
    state is the page, the contacts so far and, for the statements, the
    values of [after] asked so far. *)
Equations? collect_pages {A} (post : nat → response A) (total page : nat)
    (contacts : list A) (asked : list nat) : list A * list nat
    by wf (total - page * max_per_page) lt :=
  collect_pages post total page contacts asked
    with decide (page * max_per_page < total) := {
    | left _ =>
        collect_pages post total (S page)
          (contacts ++ resp_results (post (page * max_per_page)))
          (asked ++ [page * max_per_page]);
    | right _ => (contacts, asked) }.
Proof. unfold max_per_page in *. lia. Qed.

(** [contact_collection]: the contacts handed to
    [create_df_and_save_to_csv], and the requests made, in their order. *)
Definition contact_collection {A} (post : nat → response A) : list A * list nat :=
  let data := post 0 in
  collect_pages post (resp_total data) 1 (resp_results data) [0].

(** A record of the examples: name fields, email, industry, instant. *)
Definition contact (firstname lastname raw_email industry createdAt : value) : row :=
  <["firstname" := firstname]> (<["lastname" := lastname]>
  (<["raw_email" := raw_email]> (<["industry" := industry]>
  (<["createdAt" := createdAt]> ∅)))).

Definition contact_columns : list string :=
  ["firstname"; "lastname"; "raw_email"; "industry"; "createdAt"].

Definition ann_lee : DataFrame :=
  mkDataFrame contact_columns
    [ contact (VStr "Ann") (VStr "Lee") VNull (VStr "Meat") (VTime 20240101);
      contact (VStr "Ann") (VStr "Lee") VNull (VStr "Milling") (VTime 20230601);
      contact (VStr "Ann") (VStr "Lee") VNull (VStr "Meat") (VTime 20220101) ]
    eq_refl.

(* ===================================================================== *)
(** * The vocabulary of the statements

    Predicates and functions in which the properties below are stated,
    and the batches of the examples. *)

(** A string that starts with a character of the class [p]. *)
Definition starts_with (p : ascii → bool) (s : string) : bool :=
  match s with
  | String c _ => p c
  | EmptyString => false
  end.

(** The last character of [s] is one of "a" to "z". *)
Fixpoint ends_lower (s : string) : bool :=
  match s with
  | EmptyString => false
  | String c EmptyString => Py.is_lower c
  | String _ s' => ends_lower s'
  end.

(** The continuation of the first group of the name pattern needs a "_". *)
Definition needs_underscore {A} (k : string → option A) : Prop :=
  ∀ s, starts_with (fun d => Ascii.eqb d "_") s = false → k s = None.

(** Both name fields null, or both the empty string: the condition of
    [generate_name]. *)
Definition names_missing (firstname lastname : value) : bool :=
  (isnull firstname && isnull lastname)
  || (is_empty_str firstname && is_empty_str lastname).

(** The entry lists a city that equals [place] up to case. *)
Definition has_city (place : string) (entry : string * list string) : Prop :=
  Exists (fun city => Py.lower place = Py.lower city) entry.2.

#[global] Instance has_city_dec place entry : Decision (has_city place entry).
Proof. unfold has_city. apply _. Defined.

(** The line feed. *)
Definition LF : ascii := "010"%char.

(** What the loop over the columns does to the representative's row. *)
Definition backfill_cell (r rep : row) (column : string) : row :=
  if String.eqb column "industry" then rep
  else
    match rep !! column, r !! column with
    | Some latest, Some older =>
        if missing latest && present older then <[column := older]> rep else rep
    | _, _ => rep
    end.

Definition backfill_row (cols : list string) (r rep : row) : row :=
  foldl (backfill_cell r) rep cols.

(** The representative after the older rows [olders], in their order. *)
Definition merged_row (cols : list string) (rep : row) (olders : list row) : row :=
  foldl (fun rep r => backfill_row cols r rep) rep olders.

(** One cell of the representative against the same cell of an older row. *)
Definition fill_cell (latest older : option value) : option value :=
  match latest, older with
  | Some v, Some w => if missing v && present w then Some w else Some v
  | _, _ => latest
  end.

(** A value kept when present, else replaced by the first present one. *)
Definition fill (v : value) (olds : list value) : value :=
  if missing v then default v (List.find present olds) else v.

Definition add_industry (industries : list value) (industry : value) : list value :=
  if bool_decide (industry ∈ industries) then industries
  else industry :: industries.

(** The list of an identity: seeded with the representative's industry,
    then every older industry not yet in it put in front. *)
Definition accumulate (v0 : value) (olds : list value) : list value :=
  foldl add_industry [v0] olds.

(** The identity key of a labelled row is [k]. *)
Definition key_is (k : string) (ir : nat * row) : Prop :=
  generate_name ir.2 = Ok k.

#[global] Instance key_is_dec k ir : Decision (key_is k ir).
Proof. unfold key_is. apply _. Defined.

(** The rows of identity [k], in the order of the pass. *)
Definition group (k : string) (rows : list (nat * row)) : list (nat * row) :=
  filter (key_is k) rows.

Definition industry_of (r : row) : value := default VNull (r !! "industry").

(** The industries of an identity: those of its rows, each value once. *)
Definition history (rep : row) (olders : list row) : list value :=
  accumulate (industry_of rep) (industry_of <$> olders).

(** The list of an identity as the pass builds it, with the test [in] of
    the source at each older row. *)
Definition add_found {P : Pandas} (industries : list value) (jr : nat * row)
    : list value :=
  if contains jr.1 (industry_of jr.2) industries then industries
  else industry_of jr.2 :: industries.

Definition collected {P : Pandas} (rep : row) (olders : list (nat * row))
    : list value :=
  foldl add_found [industry_of rep] olders.

(** A row of the pass over the frame [frame0]: it is the row of the frame
    at its label, its identity resolves and, unless the identity is the
    empty string, it has an industry cell. *)
Definition row_ok (frame0 : list row) (ir : nat * row) : Prop :=
  frame0 !! ir.1 = Some ir.2
  ∧ ∃ name, generate_name ir.2 = Ok name
            ∧ (name ≠ "" → is_Some (ir.2 !! "industry")).

(** The state of the loop after the rows [seen], on the frame [frame0]
    with the columns [cols]. *)
Record invariant {P : Pandas} (cols : list string) (frame0 : list row)
    (seen : list (nat * row)) (st : list row * records) : Prop := {
  inv_nodup : NoDup (keys st.2);
  inv_keys : ∀ k, k ∈ keys st.2 ↔ is_Some (entries st.2 !! k);
  inv_dom : ∀ k, is_Some (entries st.2 !! k) ↔ k ≠ "" ∧ group k seen ≠ [];
  inv_entry : ∀ k i inds, entries st.2 !! k = Some (i, inds) →
    ∃ rep olders, group k seen = (i, rep) :: olders
                  ∧ inds = collected rep olders
                  ∧ st.1 !! i = Some (merged_row cols rep olders.*2);
  inv_length : length st.1 = length frame0;
  inv_frame : ∀ j, (∀ k i inds, entries st.2 !! k = Some (i, inds) → i ≠ j) →
    st.1 !! j = frame0 !! j
}.

Definition is_string (v : value) : bool :=
  match v with VStr _ => true | _ => false end.

Definition text (v : value) : string :=
  match v with VStr s => s | _ => "" end.

(** The industry cell written for a list of more than one industry. *)
Definition serialize (industries : list value) : value :=
  VStr (";" +:+ Py.join ";" (text <$> industries)).

(** What [concat_industries] does to the row of a representative. *)
Definition finalize (industries : list value) (r : row) : row :=
  if 1 <? length industries then <["industry" := serialize industries]> r else r.

(** The canonical record of identity [k]: the label of the first row of
    the identity in the order of the pass, and that row after the backfill
    from the later rows and with the serialised history. *)
Definition canonical (cols : list string) (rows : list (nat * row)) (k : string)
    : option (nat * row) :=
  match group k rows with
  | [] => None
  | (i, rep) :: olders =>
      Some (i, finalize (history rep olders.*2) (merged_row cols rep olders.*2))
  end.

(** A list of industries that [concat_industries] takes: a single value,
    or strings. *)
Definition joinable (industries : list value) : bool :=
  negb (1 <? length industries) || forallb is_string industries.

(** A record the engine accepts: the instant was read or is missing, the
    identity resolves, the industry is a string. *)
Definition record_ok (r : row) : bool :=
  match r !! "createdAt" with
  | Some VNull | Some (VTime _) => true
  | _ => false
  end
  && is_ok (generate_name r)
  && match r !! "industry" with
     | Some (VStr _) => true
     | _ => false
     end.

(** A batch the engine accepts: it has the column of the instants and
    its records are accepted. *)
Definition well_formed (df : DataFrame) : bool :=
  bool_decide ("createdAt" ∈ columns df) && forallb record_ok (data df).

(** The identity of a record, when it resolves. *)
Definition identity_of (r : row) : option string :=
  match generate_name r with
  | Ok k => Some k
  | Raise _ => None
  end.

(** The distinct non-empty identity keys of the records of a batch. *)
Definition identity_keys (df : DataFrame) : list string :=
  remove_dups (filter (fun k => k ≠ "") (omap identity_of (data df))).

(** A batch for the examples: three records of Ann Lee (one found by her
    email), a record without identity and a record of Bob Ray. *)
Definition sample_batch : DataFrame :=
  mkDataFrame contact_columns
    [ contact (VStr "Ann") (VStr "Lee") VNull (VStr "Meat") (VTime 20240101);
      contact VNull VNull (VStr "<ann_lee@x.com>") (VStr "Milling") (VTime 20230601);
      contact (VStr "Ann") (VStr "Lee") (VStr "") (VStr "Meat") (VTime 20220101);
      contact VNull VNull VNull (VStr "Fish") (VTime 20250101);
      contact (VStr "Bob") (VStr "Ray") VNull (VStr "Dairy") VNull ]
    eq_refl.

(** The industry cell of a canonical record for a history: the bare value
    for a single value, the serialised list otherwise. *)
Definition industry_cell (hist : list value) : value :=
  match hist with
  | [v] => v
  | _ => serialize hist
  end.

(** The values that an industry cell lists: its pieces between the ";",
    without the empty piece in front of the leading ";" of a list. *)
Definition listed_values (cell : string) : list string :=
  match Py.split ";" cell with
  | "" :: ((_ :: _ :: _) as listed) => listed
  | pieces => pieces
  end.

(** A batch with a date that cannot be read. *)
Definition unreadable_batch : DataFrame :=
  mkDataFrame contact_columns
    [ contact (VStr "Ann") (VStr "Lee") VNull (VStr "Meat") (VTime 20240101);
      contact (VStr "Bob") (VStr "Ray") VNull (VStr "Dairy") (VStr "not a date");
      contact (VStr "Ann") (VStr "Lee") VNull (VStr "Milling") (VTime 20230601) ]
    eq_refl.

(** A batch in which one record of Ann Lee has no industry. *)
Definition mixed_batch : DataFrame :=
  mkDataFrame contact_columns
    [ contact (VStr "Ann") (VStr "Lee") VNull (VStr "Meat") (VTime 20240101);
      contact (VStr "Ann") (VStr "Lee") (VStr "<ann_lee@x.com>") VNull
              (VTime 20230601) ]
    eq_refl.

(** A batch in which an industry holds a ";". *)
Definition semicolon_batch : DataFrame :=
  mkDataFrame contact_columns
    [ contact (VStr "Ann") (VStr "Lee") VNull (VStr "Meat") (VTime 20240101);
      contact (VStr "Ann") (VStr "Lee") VNull (VStr "Meat;Milling")
              (VTime 20230601) ]
    eq_refl.

(** A batch in which no record of Ann Lee has an industry. *)
Definition unknown_batch : DataFrame :=
  mkDataFrame contact_columns
    [ contact (VStr "Ann") (VStr "Lee") VNull VNull (VTime 20240101);
      contact (VStr "Ann") (VStr "Lee") VNull VNull (VTime 20230601) ]
    eq_refl.

(** The frame without rows and without columns. *)
Definition no_frame : DataFrame := mkDataFrame [] [] eq_refl.

(** The instants of the rows are read and differ from one another: every
    sorting routine lists the rows in the same order. *)
Definition distinct_instants (rows : list row) : bool :=
  forallb (fun r => match r !! "createdAt" with
                    | Some (VStr _) => false
                    | _ => true
                    end) rows
  && bool_decide (NoDup ((fun r => default VNull (r !! "createdAt")) <$> rows)).

(** No industry of the rows is missing. *)
Definition industries_known (rows : list row) : bool :=
  forallb (fun r => match r !! "industry" with
                    | Some VNull => false
                    | _ => true
                    end) rows.

(** The [createdAt] cell of the record is there. *)
Definition has_createdAt (r : row) : bool :=
  match r !! "createdAt" with Some _ => true | None => false end.

(** The [createdAt] cell of the record is a text that is no date. *)
Definition unreadable (r : row) : bool :=
  match r !! "createdAt" with Some (VStr _) => true | _ => false end.

(** The digits of a string, in their order: what [re.sub] leaves when it
    takes out every character that is no digit. *)
Definition digits_of (s : string) : string := Re.sub_class Py.not_digit "" s.

(** The digits that [fix_phone_numbers] prints for a raw phone. *)
Definition phone_digits (raw : string) : string := Py.lstrip "0" (digits_of raw).

(** The dialing code that [fix_phone_numbers] prints for a country. *)
Definition dialing_code (country : option string) : string :=
  if bool_decide (country ∈ [Some "England"; Some "Wales"; Some "Northern Ireland";
                             Some "Scotland"; Some "Great Britain"])
  then "+44"
  else if bool_decide (country = Some "Ireland") then "+353"
  else "".

(** The layout of a formatted phone. *)
Definition phone_format (code digits : string) : string :=
  "(" +:+ code +:+ ") " +:+ Py.take 4 digits +:+ " " +:+ Py.drop 4 digits.

(** A character that is no digit, or the digit zero. *)
Definition zero_or_no_digit (c : ascii) : bool :=
  Py.not_digit c || Ascii.eqb c "0".

(** A cell that is null or a string. *)
Definition textual (v : value) : bool := isnull v || is_string v.

(** The instant of the record was read, or is missing. *)
Definition readable (r : row) : bool :=
  match r !! "createdAt" with
  | Some VNull | Some (VTime _) => true
  | _ => false
  end.

(** A record that the pass reads without raising: the instant is readable,
    the identity resolves, the industry cell is there. *)
Definition record_parses (r : row) : bool :=
  readable r && is_ok (generate_name r)
  && match r !! "industry" with
     | Some _ => true
     | None => false
     end.

(** A record that the pass skips: the identity is the empty string. *)
Definition record_skipped (r : row) : bool :=
  readable r && bool_decide (generate_name r = Ok "").

(** An entry of [first_records] on which [";".join] raises: more than one
    industry, one of them no string. *)
Definition unjoinable (entry : nat * list value) : bool :=
  (1 <? length entry.2) && negb (forallb is_string entry.2).

(** Every key of [first_records] has its entry. *)
Definition keys_bound (fr : records) : Prop :=
  ∀ k, k ∈ keys fr → is_Some (entries fr !! k).

(* ===================================================================== *)
(** * Properties *)

(** ** Scenarios of the specification *)

Example search_email_pattern :
  Re.search email_pattern "hi <a.b@x.com> bye" = Some ["a.b@x.com"].
Proof. reflexivity. Qed.

Example search_name_pattern :
  Re.search name_pattern "jane_doe42@x.com" = Some ["jane"; "doe"].
Proof. reflexivity. Qed.

Example country_recognition_dublin :
  country_recognition (Some "Dublin") = ("Ireland", "Dublin").
Proof. reflexivity. Qed.

Example country_recognition_atlantis :
  country_recognition (Some "Atlantis") = ("Unknown", "Not recognized").
Proof. reflexivity. Qed.

Example found_emails_scenario :
  found_emails (Some "hi <a.b@x.com> bye") = ([], Ok "a.b@x.com").
Proof. reflexivity. Qed.

Example fix_phone_numbers_scenario :
  fix_phone_numbers (Some "07911 123456") (Some "Scotland") = "(+44) 7911 123456".
Proof. vm_compute. reflexivity. Qed.

Example fix_phone_numbers_empty :
  fix_phone_numbers (Some "") (Some "Ireland") = "(+353)  ".
Proof. vm_compute. reflexivity. Qed.

(** Propositional goals over equalities of keys and labels. *)
Ltac by_cases := intuition (first [congruence | done | eauto]).

(** ** Strings *)

Section StringFacts.

Lemma app_cons c a b : String c a +:+ b = String c (a +:+ b).
Proof. reflexivity. Qed.

Lemma app_empty b : "" +:+ b = b.
Proof. reflexivity. Qed.

Lemma length_app a b :
  String.length (a +:+ b) = String.length a + String.length b.
Proof. induction a as [|c a IH]; [done|]. rewrite app_cons. simpl. by rewrite IH. Qed.

Lemma take_app a b : Py.take (String.length a) (a +:+ b) = a.
Proof.
  induction a as [|c a IH]; [by destruct b|].
  rewrite app_cons. simpl. by rewrite IH.
Qed.

Lemma consumed_app a b : Re.consumed (a +:+ b) b = a.
Proof.
  unfold Re.consumed. rewrite length_app.
  replace (String.length a + String.length b - String.length b)
    with (String.length a) by lia.
  apply take_app.
Qed.

Lemma has_char_cons c d s :
  Py.has_char c (String d s) = false → Ascii.eqb d c = false ∧ Py.has_char c s = false.
Proof. simpl. by intros [??]%orb_false_iff. Qed.

End StringFacts.

(** ** The matcher *)

Section Matcher.

Context {A : Type}.
Implicit Types (p : ascii → bool) (k : string → option A).

(** The repetition stops where the class stops. *)
Lemma star_k_stop p s k : starts_with p s = false → Re.star_k p s k = k s.
Proof. destruct s as [|c s]; [done|]. simpl. by intros ->. Qed.

(** Greedy: a match of the rest after a longer run is preferred. *)
Lemma star_k_through p a b k m :
  Py.all_chars p a = true →
  Re.star_k p b k = Some m →
  Re.star_k p (a +:+ b) k = Some m.
Proof.
  intros Ha Hb. induction a as [|c a IH]; [done|].
  simpl in Ha. apply andb_true_iff in Ha as [Hc Ha].
  rewrite app_cons. simpl. rewrite Hc. by rewrite (IH Ha).
Qed.

Lemma star_k_run p a b k m :
  Py.all_chars p a = true →
  starts_with p b = false →
  k b = Some m →
  Re.star_k p (a +:+ b) k = Some m.
Proof.
  intros Ha Hb Hk. apply star_k_through; [done|]. by rewrite star_k_stop.
Qed.

(** The repetition fails when the rest fails after every run. *)
Lemma star_k_fail p s k :
  (∀ n, k (Py.drop n s) = None) → Re.star_k p s k = None.
Proof.
  induction s as [|c s IH]; intros Hk.
  - apply (Hk 0).
  - pose proof (Hk 0) as H0. simpl in *. rewrite IH, H0; [by destruct (p c)|].
    intros n. apply (Hk (S n)).
Qed.

End Matcher.

Lemma has_char_drop c n s :
  Py.has_char c s = false → Py.has_char c (Py.drop n s) = false.
Proof.
  revert s. induction n as [|n IH]; intros [|d s] H; try done.
  simpl. apply IH. by apply has_char_cons in H as [_ ?].
Qed.

Lemma starts_with_has_char c s :
  Py.has_char c s = false → starts_with (fun d => Ascii.eqb d c) s = false.
Proof. destruct s as [|d s]; [done|]. by intros [? _]%has_char_cons. Qed.

(** ** Email Extractor *)

(** The match of the default pattern at a "<": the group runs to the last
    ">" that a line-feed-free run reaches. *)
Lemma match_here_email mid post :
  Py.all_chars Py.dot mid = true →
  Py.has_char ">" post = false →
  Re.match_here email_pattern (String "<" (mid +:+ String ">" post)) = Some [mid].
Proof.
  intros Hmid Hpost. unfold Re.match_here, email_pattern. simpl.
  apply star_k_through; [done|].
  simpl. rewrite star_k_fail.
  - change (String ">" post) with (">" +:+ post) at 2.
    rewrite <- (app_cons ">" "" post) at 1.
    by rewrite consumed_app.
  - intros n. pose proof (has_char_drop ">" n post Hpost) as H.
    apply starts_with_has_char in H.
    destruct (Py.drop n post) as [|d s]; [done|]. simpl in H. by rewrite H.
Qed.

Lemma search_cons r c s :
  Re.search r (String c s) =
  match Re.match_here r (String c s) with
  | Some gs => Some gs
  | None => Re.search r s
  end.
Proof. reflexivity. Qed.

Lemma search_email_skip pre s :
  Py.has_char "<" pre = false →
  Re.search email_pattern (pre +:+ s) = Re.search email_pattern s.
Proof.
  induction pre as [|c pre IH]; [done|].
  intros [Hc Hpre]%has_char_cons.
  rewrite app_cons, search_cons.
  unfold Re.match_here, email_pattern at 1. simpl. rewrite Hc. by apply IH.
Qed.

Lemma all_chars_dot s :
  Py.has_char "010" s = false → Py.all_chars Py.dot s = true.
Proof.
  induction s as [|c s IH]; [done|].
  intros [Hc Hs]%has_char_cons. simpl. unfold Py.dot at 1. rewrite Hc. by apply IH.
Qed.

(** ** Identity Resolver *)

Lemma is_lower_not_underscore c : Py.is_lower c = true → Ascii.eqb c "_" = false.
Proof.
  intros H. apply Ascii.eqb_neq. intros ->. by vm_compute in H.
Qed.

Lemma star_k_blocked {A} (k : string → option A) t rest :
  needs_underscore k →
  t ≠ "" → Py.has_char "_" t = false → ends_lower t = false →
  Re.star_k Py.is_lower (t +:+ rest) k = None.
Proof.
  intros Hk. induction t as [|d t IH]; [done|].
  intros _ [Hd Ht]%has_char_cons Hend.
  rewrite app_cons. simpl.
  assert (k (String d (t +:+ rest)) = None) as Hfail by (apply Hk; simpl; done).
  destruct (Py.is_lower d) eqn:Hlow; [|done].
  rewrite IH; [done| |done|].
  - intros ->. simpl in Hend. congruence.
  - destruct t; [done|]. exact Hend.
Qed.

Lemma match_here_name_blocked c t rest :
  Py.has_char "_" (String c t) = false → ends_lower (String c t) = false →
  Re.match_here name_pattern (String c t +:+ rest) = None.
Proof.
  intros Hno Hend. rewrite app_cons.
  unfold Re.match_here, name_pattern. simpl.
  destruct (Py.is_lower c) eqn:Hlow; [|done].
  apply has_char_cons in Hno as [Hc Ht].
  apply star_k_blocked; [|intros ->; simpl in Hend; congruence|done|].
  - intros [|d s] Hs; [done|]. simpl in Hs. simpl. by rewrite Hs.
  - destruct t; [done|]. exact Hend.
Qed.

Lemma search_name_skip pre s :
  Py.has_char "_" pre = false → ends_lower pre = false →
  Re.search name_pattern (pre +:+ s) = Re.search name_pattern s.
Proof.
  induction pre as [|c pre IH]; [done|].
  intros Hno Hend.
  pose proof (match_here_name_blocked c pre s Hno Hend) as Hnone.
  rewrite app_cons in *. rewrite search_cons, Hnone.
  apply has_char_cons in Hno as [_ Hpre].
  apply IH; [done|]. destruct pre; [done|]. exact Hend.
Qed.

Lemma match_here_name c1 g1 c2 g2 post :
  Py.all_chars Py.is_lower (String c1 g1) = true →
  Py.all_chars Py.is_lower (String c2 g2) = true →
  starts_with Py.is_lower post = false →
  Re.match_here name_pattern (String c1 g1 +:+ "_" +:+ String c2 g2 +:+ post)
  = Some [String c1 g1; String c2 g2].
Proof.
  intros [Hc1 Hg1]%andb_true_iff [Hc2 Hg2]%andb_true_iff Hpost.
  unfold Re.match_here, name_pattern. rewrite !app_cons, app_empty. simpl.
  rewrite Hc1.
  eapply star_k_run; [done|done|]. simpl. rewrite Hc2.
  eapply star_k_run; [done|done|]. simpl.
  rewrite <- (app_cons c1 g1), consumed_app.
  by rewrite <- (app_cons c2 g2), consumed_app.
Qed.

Lemma generate_name_fallback (r : row) f l e :
  r !! "firstname" = Some f → r !! "lastname" = Some l →
  names_missing f l = true →
  r !! "raw_email" = Some (VStr e) → e ≠ "" →
  generate_name r = name_from_email e.
Proof.
  intros Hf Hl Hmiss He Hne. unfold generate_name, getitem.
  rewrite Hf, Hl, He. apply String.eqb_neq in Hne.
  unfold names_missing in Hmiss.
  destruct f as [|a|t], l as [|b|u]; simpl in *;
    rewrite ?andb_false_r in Hmiss; try done.
  - by rewrite Hne.
  - destruct (String.eqb a "") eqn:Ha; simpl in *; [|done].
    rewrite Hmiss. simpl. by rewrite Hne.
Qed.

Lemma generate_name_names (r : row) a b :
  r !! "firstname" = Some (VStr a) → r !! "lastname" = Some (VStr b) →
  names_missing (VStr a) (VStr b) = false →
  generate_name r = Ok (a +:+ " " +:+ b).
Proof.
  intros Hf Hl Hmiss. unfold generate_name, getitem. rewrite Hf, Hl.
  unfold names_missing in Hmiss. simpl in *.
  destruct (String.eqb a "") eqn:Ha; simpl in *; [rewrite Hmiss|]; simpl.
  - apply String.eqb_eq in Ha as ->. done.
  - f_equal. clear. induction a as [|c a IH]; [done|]. by rewrite !app_cons, IH.
Qed.

(** ** Location Resolver *)

Lemma scan_cities_spec place country st cities :
  scan_cities place country st cities =
  if decide (has_city place (country, cities)) then (true, country) else st.
Proof.
  unfold scan_cities, has_city. simpl. revert st.
  induction cities as [|city cities IH]; intros st; simpl.
  - done.
  - rewrite IH.
    destruct (String.eqb_spec (Py.lower place) (Py.lower city)) as [Heq|Hne];
      destruct (decide (Exists (fun c => Py.lower place = Py.lower c) cities)) as [H1|H1];
      destruct (decide (Exists (fun c => Py.lower place = Py.lower c) (city :: cities)))
        as [H2|H2];
      first [ done
            | exfalso; apply H2; by constructor
            | exfalso; inversion H2; done ].
Qed.

Lemma scan_locations_from place st locations :
  foldl (fun st entry => scan_cities place entry.1 st entry.2) st locations =
  match last (filter (has_city place) locations) with
  | Some entry => (true, entry.1)
  | None => st
  end.
Proof.
  revert st. induction locations as [|[country cities] locations IH]; intros st; [done|].
  simpl. rewrite IH, scan_cities_spec. rewrite filter_cons.
  destruct (decide (has_city place (country, cities))) as [Hc|Hc]; [|done].
  destruct (filter (has_city place) locations) as [|e es] eqn:Hf; [done|].
  rewrite (last_cons (country, cities)). by destruct (last (e :: es)).
Qed.

(* ===================================================================== *)
(** * The leaf components *)

(** C8. On a place that is a string, [country_recognition] returns
    [(place, "Unknown")] when [place] is a key of the table, compared
    exactly; otherwise, when some entry lists a city equal to [place] up to
    case, the country of the last such entry in table order, paired with
    [place] as it was given; otherwise [("Unknown", "Not recognized")].
    The table is a parameter here; [country_recognition] is the instance at
    [load_country_city_database]. *)
Theorem country_recognition_cases
    (locations : list (string * list string)) (place : string) :
  country_recognition_in locations (Some place) =
  if bool_decide (place ∈ locations.*1) then (place, "Unknown")
  else match last (filter (has_city place) locations) with
       | Some entry => (entry.1, place)
       | None => ("Unknown", "Not recognized")
       end.
Proof.
  unfold country_recognition_in, scan_locations.
  case_bool_decide; [done|].
  rewrite scan_locations_from.
  by destruct (last (filter (has_city place) locations)).
Qed.

(** C9 does not hold as the specification states it: the empty string is
    not a null, and the Location Resolver answers it with the pair for an
    unknown place. *)
Lemma empty_place_is_not_missing :
  ¬ (country_recognition (Some "") = ("Nan", "Nan")
     ∧ fix_phone_numbers (Some "") None = "Nan").
Proof. intros [H _]. vm_compute in H. discriminate H. Qed.

(** C9 (amended). The sentinels answer a null input: a null place gives
    [("Nan", "Nan")] and a null phone gives ["Nan"], whatever the country.
    The empty string is a string for the Location Resolver, which answers
    [("Unknown", "Not recognized")]. *)
Theorem null_input_sentinels :
  country_recognition None = ("Nan", "Nan")
  ∧ (∀ country, fix_phone_numbers None country = "Nan")
  ∧ country_recognition (Some "") = ("Unknown", "Not recognized").
Proof. by repeat split. Qed.

(** C10 does not hold as the specification states it: the "." of the
    pattern does not match a line feed, so two segments on two lines give
    the first segment. *)
Lemma found_emails_two_lines :
  found_emails (Some ("a <x@y>" +:+ String LF "b <z@w>")) = ([], Ok "x@y")
  ∧ (found_emails (Some ("a <x@y>" +:+ String LF "b <z@w>"))).2
    ≠ Ok ("x@y>" +:+ String LF "b <z@w").
Proof. split; [by vm_compute|]. vm_compute. discriminate. Qed.

(** C10 (amended). When no line feed stands between the first "<" and the
    last ">" of the input, [found_emails] with the default pattern returns
    all that stands between them, however many segments that spans, and
    prints nothing. *)
Theorem found_emails_first_to_last (pre mid post : string) :
  Py.has_char "<" pre = false →
  Py.has_char LF mid = false →
  Py.has_char ">" post = false →
  found_emails (Some (pre +:+ "<" +:+ mid +:+ ">" +:+ post)) = ([], Ok mid).
Proof.
  intros Hpre Hmid Hpost. unfold found_emails, found_emails_with.
  rewrite search_email_skip by done.
  rewrite !app_cons, !app_empty, search_cons.
  rewrite match_here_email by auto using all_chars_dot. done.
Qed.

Lemma found_emails_first_to_last_witness :
  Py.has_char "<" "a " = false
  ∧ Py.has_char LF "x@y> b <z@w" = false
  ∧ Py.has_char ">" "" = false
  ∧ found_emails (Some "a <x@y> b <z@w>") = ([], Ok "x@y> b <z@w").
Proof.
  do 3 (split; [reflexivity|]).
  apply (found_emails_first_to_last "a " "x@y> b <z@w" ""); reflexivity.
Defined.

(** C6 does not hold as the specification states it: with one name field
    present the identity is built from the name fields, and the email is
    not read. *)
Lemma generate_name_one_name_field :
  generate_name (contact (VStr "Jane") (VStr "") (VStr "<john_smith@x.com>")
                         VNull VNull) = Ok "Jane "
  ∧ name_from_email "<john_smith@x.com>" = Ok "John Smith".
Proof. split; by vm_compute. Qed.

(** C6 (amended). When the two name fields are both null or both the
    empty string and [raw_email] is a non-empty string, the identity is
    what [name_from_email] finds in [raw_email]; when the two name fields
    are strings that are not both empty, the identity is the first name, a
    space and the last name, and the email is not read. *)
Theorem generate_name_sources (r : row) (f l : value) :
  r !! "firstname" = Some f → r !! "lastname" = Some l →
  (names_missing f l = true →
     ∀ e, r !! "raw_email" = Some (VStr e) → e ≠ "" →
          generate_name r = name_from_email e)
  ∧ (names_missing f l = false →
     ∀ a b, f = VStr a → l = VStr b → generate_name r = Ok (a +:+ " " +:+ b)).
Proof.
  intros Hf Hl. split.
  - intros Hmiss e He Hne. by eapply generate_name_fallback.
  - intros Hmiss a b -> ->. by apply generate_name_names.
Qed.

Lemma generate_name_sources_witness :
  generate_name (contact VNull VNull (VStr "<john_smith@x.com>") VNull VNull)
  = name_from_email "<john_smith@x.com>"
  ∧ generate_name (contact (VStr "Jane") (VStr "") VNull VNull VNull) = Ok "Jane ".
Proof.
  split.
  - refine (proj1 (generate_name_sources
                     (contact VNull VNull (VStr "<john_smith@x.com>") VNull VNull)
                     VNull VNull _ _) _ _ _ _);
      first [reflexivity | intros H; discriminate H].
  - refine (proj2 (generate_name_sources
                     (contact (VStr "Jane") (VStr "") VNull VNull VNull)
                     (VStr "Jane") (VStr "") _ _) _ "Jane" "" _ _); reflexivity.
Defined.

(** C7 does not hold as the specification states it: the pattern is
    matched with case, so a capitalised local part matches nowhere and the
    call raises. *)
Lemma generate_name_capitalised_email :
  generate_name (contact VNull VNull (VStr "Jane_Doe@x.com") VNull VNull)
  = Raise AttributeError
  ∧ generate_name (contact VNull VNull (VStr "Jane_Doe@x.com") VNull VNull)
    ≠ Ok "Jane Doe".
Proof. split; [by vm_compute|]. vm_compute. discriminate. Qed.

(** C7 (amended). For a record whose name fields are both null or both
    empty, and whose [raw_email] reads: a prefix without "_" that does not
    end in a lower-case letter, a group of lower-case letters, a "_",
    a second group of lower-case letters, and a rest that does not start
    with a lower-case letter, the identity is the two groups capitalised
    and joined with a space.  The match is with case: lower-case letters
    only. *)
Theorem generate_name_from_email (r : row) (f l : value)
    (pre first last post : string) :
  r !! "firstname" = Some f → r !! "lastname" = Some l →
  names_missing f l = true →
  r !! "raw_email" = Some (VStr (pre +:+ first +:+ "_" +:+ last +:+ post)) →
  Py.has_char "_" pre = false → ends_lower pre = false →
  first ≠ "" → Py.all_chars Py.is_lower first = true →
  last ≠ "" → Py.all_chars Py.is_lower last = true →
  starts_with Py.is_lower post = false →
  generate_name r = Ok (Py.capitalize first +:+ " " +:+ Py.capitalize last).
Proof.
  intros Hf Hl Hmiss He Hpre Hend Hfirst Hlow1 Hlast Hlow2 Hpost.
  rewrite (generate_name_fallback r f l _ Hf Hl Hmiss He).
  - unfold name_from_email, name_from_email_with.
    rewrite search_name_skip by done.
    destruct first as [|c1 g1]; [done|]. destruct last as [|c2 g2]; [done|].
    rewrite (app_cons c1), search_cons, <- (app_cons c1).
    by rewrite (match_here_name c1 g1 c2 g2 post).
  - destruct pre; [|done]. by destruct first.
Qed.

Lemma generate_name_from_email_witness :
  generate_name (contact VNull VNull (VStr "Jane Doe <jane_doe42@x.com>") VNull VNull)
  = Ok "Jane Doe".
Proof.
  apply (generate_name_from_email
           (contact VNull VNull (VStr "Jane Doe <jane_doe42@x.com>") VNull VNull)
           VNull VNull "Jane Doe <" "jane" "doe" "42@x.com>");
    first [reflexivity | intros H; discriminate H].
Defined.

(* ===================================================================== *)
(** * The merge engine *)

(** ** The order of the rows *)

Lemma newer_or_equal_total a b :
  newer_or_equal a b = false → newer_or_equal b a = true.
Proof. destruct a, b; simpl; try done. intros H. apply Z.leb_le. apply Z.leb_gt in H. lia. Qed.

Lemma newer_or_equal_trans a b c :
  newer_or_equal a b = true → newer_or_equal b c = true → newer_or_equal a c = true.
Proof.
  destruct a, b, c; simpl; try done.
  intros H1 H2. apply Z.leb_le. apply Z.leb_le in H1, H2. lia.
Qed.

#[global] Instance listed_before_trans : Transitive listed_before.
Proof. intros a b c. apply newer_or_equal_trans. Qed.

Lemma insert_desc_perm x l : insert_desc x l ≡ₚ x :: l.
Proof.
  induction l as [|y l IH]; simpl; [done|].
  destruct (newer_or_equal _ _); [done|]. rewrite IH. apply perm_swap.
Qed.

Lemma insertion_sort_perm l : insertion_sort l ≡ₚ l.
Proof.
  induction l as [|x l IH]; simpl; [done|].
  by rewrite insert_desc_perm, IH.
Qed.

Lemma insert_desc_sorted x l :
  StronglySorted listed_before l → StronglySorted listed_before (insert_desc x l).
Proof.
  induction 1 as [|y l Hl IH Hy]; simpl.
  - repeat constructor.
  - destruct (newer_or_equal (created x) (created y)) eqn:Hxy.
    + constructor; [by constructor|]. constructor; [done|].
      eapply Forall_impl; [exact Hy|]. intros z Hz. by etrans.
    + constructor; [done|]. rewrite insert_desc_perm. constructor; [|done].
      by apply newer_or_equal_total.
Qed.

Lemma insertion_sort_sorted l : StronglySorted listed_before (insertion_sort l).
Proof.
  induction l as [|x l IH]; simpl; [constructor|]. by apply insert_desc_sorted.
Qed.

(** The routine of the examples: the insertion sort, and one object for
    every missing industry. *)
Definition stable : Pandas :=
  {| sort_values := insertion_sort;
     sort_values_perm := insertion_sort_perm;
     sort_values_sorted := insertion_sort_sorted;
     nan_found := fun _ => true |}.

(** The same routine, with an object of its own for every missing
    industry, as in a column that holds no text. *)
Definition apart : Pandas :=
  {| sort_values := insertion_sort;
     sort_values_perm := insertion_sort_perm;
     sort_values_sorted := insertion_sort_sorted;
     nan_found := fun _ => false |}.

(** Two missing industries of one contact: one value when they are one
    object, two values and a join that raises when they are not. *)
Example duplicate_management_unknown :
  duplicate_management (P := stable) unknown_batch
  = Ok [ (0, contact (VStr "Ann") (VStr "Lee") VNull VNull (VTime 20240101)) ]
  ∧ duplicate_management (P := apart) unknown_batch = Raise TypeError.
Proof. split; vm_compute; reflexivity. Qed.

Example duplicate_management_ann_lee :
  duplicate_management (P := stable) ann_lee =
  Ok [ (0, contact (VStr "Ann") (VStr "Lee") VNull
                   (VStr ";Milling;Meat") (VTime 20240101)) ].
Proof. vm_compute. reflexivity. Qed.

Lemma StronglySorted_filter_list {A} (R : relation A) (P : A → Prop)
    `{∀ x, Decision (P x)} l :
  StronglySorted R l → StronglySorted R (filter P l).
Proof.
  induction 1 as [|x l Hl IH Hx]; [constructor|].
  rewrite filter_cons. case_decide; [|done].
  constructor; [done|]. apply Forall_forall. intros y [_ Hy]%list_elem_of_filter.
  by eapply Forall_forall in Hx.
Qed.


(** The labels of [iterrows] are the positions of the rows. *)
Lemma elem_of_iterrows {P : Pandas} rows i r :
  (i, r) ∈ iterrows rows ↔ rows !! i = Some r.
Proof.
  unfold iterrows. rewrite sort_values_perm, elem_of_lookup_imap.
  split; [|by eauto]. by intros (j & y & [= -> ->] & ?).
Qed.

Lemma NoDup_iterrows {P : Pandas} rows : NoDup (iterrows rows).*1.
Proof.
  unfold iterrows. rewrite sort_values_perm.
  apply NoDup_alt. intros i j x.
  rewrite !list_lookup_fmap, !list_lookup_imap.
  destruct (rows !! i) eqn:Hi, (rows !! j) eqn:Hj; simpl; congruence.
Qed.

Lemma NoDup_fst_functional {A B} (l : list (A * B)) x y1 y2 :
  NoDup l.*1 → (x, y1) ∈ l → (x, y2) ∈ l → y1 = y2.
Proof.
  induction l as [|[a b] l IH]; simpl; [by intros _ ?%elem_of_nil|].
  rewrite NoDup_cons, !elem_of_cons. intros [Hnot Hnd] [H1|H1] [H2|H2].
  - congruence.
  - exfalso. apply Hnot. injection H1 as <- <-.
    by apply (list_elem_of_fmap_2 fst) in H2.
  - exfalso. apply Hnot. injection H2 as <- <-.
    by apply (list_elem_of_fmap_2 fst) in H1.
  - by apply IH.
Qed.

(** ** The backfill of one representative *)

Lemma backfill_column_row r i frame rep column :
  frame !! i = Some rep →
  backfill_column r i frame column = <[i := backfill_cell r rep column]> frame.
Proof.
  intros Hi. unfold backfill_column, backfill_cell. rewrite Hi. simpl.
  assert (<[i := rep]> frame = frame) as Hid by by apply list_insert_id.
  destruct (String.eqb column "industry"); [done|].
  destruct (rep !! column) as [v|], (r !! column) as [w|]; try done.
  destruct (missing v && present w); [|done].
  apply list_eq. intros j. destruct (decide (i = j)) as [<-|Hne].
  - rewrite list_lookup_alter_eq, Hi, list_lookup_insert_eq; [done|].
    by eapply lookup_lt_Some.
  - by rewrite list_lookup_alter_ne, list_lookup_insert_ne.
Qed.

Lemma backfill_frame cols r i frame rep :
  frame !! i = Some rep →
  foldl (backfill_column r i) frame cols = <[i := backfill_row cols r rep]> frame.
Proof.
  unfold backfill_row. revert frame rep.
  induction cols as [|c cols IH]; intros frame rep Hi; simpl.
  - by rewrite list_insert_id.
  - rewrite (backfill_column_row r i frame rep c Hi).
    rewrite (IH _ (backfill_cell r rep c)).
    + by rewrite list_insert_insert_eq.
    + apply list_lookup_insert_eq. by eapply lookup_lt_Some.
Qed.

Lemma backfill_cell_lookup r rep c' c :
  backfill_cell r rep c' !! c =
  if decide (c = c' ∧ c ≠ "industry") then fill_cell (rep !! c) (r !! c)
  else rep !! c.
Proof.
  unfold backfill_cell, fill_cell.
  destruct (String.eqb_spec c' "industry") as [->|Hind].
  { case_decide as H; [by destruct H|done]. }
  case_decide as H.
  - destruct H as [-> _].
    destruct (rep !! c') as [v|] eqn:Hv, (r !! c') as [w|]; try done.
    destruct (missing v && present w); [|done]. by rewrite lookup_insert_eq.
  - destruct (rep !! c') as [v|] eqn:Hv, (r !! c') as [w|]; try done.
    destruct (missing v && present w); [|done].
    rewrite lookup_insert_ne; [done|]. intros ->. by apply H.
Qed.

Lemma fill_cell_idemp x y : fill_cell (fill_cell x y) y = fill_cell x y.
Proof.
  destruct x as [v|], y as [w|]; simpl; try done.
  destruct (missing v && present w) eqn:H; simpl; [|by rewrite H].
  apply andb_true_iff in H as [_ H]. unfold present, missing in *.
  destruct w as [|s|t]; simpl in *; try done.
  by destruct (String.eqb s "").
Qed.

Lemma backfill_row_lookup cols r rep c :
  backfill_row cols r rep !! c =
  if decide (c ∈ cols ∧ c ≠ "industry") then fill_cell (rep !! c) (r !! c)
  else rep !! c.
Proof.
  unfold backfill_row. revert rep.
  induction cols as [|c' cols IH]; intros rep; simpl.
  - done.
  - rewrite IH, backfill_cell_lookup.
    repeat case_decide; try done; try (by rewrite fill_cell_idemp);
      exfalso; rewrite ?elem_of_cons in *; by_cases.
Qed.

Lemma fill_present v olds : present v = true → fill v olds = v.
Proof.
  unfold fill, present, missing. destruct v as [|s|t]; simpl; try done.
  by destruct (String.eqb s "").
Qed.


(** Every cell of the merged row other than the industry: the
    representative's own value when it is present, else the first present
    value among the older rows. *)
Lemma merged_row_lookup cols rep olders c v :
  c ∈ cols → c ≠ "industry" → rep !! c = Some v →
  merged_row cols rep olders !! c = Some (fill v (omap (.!! c) olders)).
Proof.
  intros Hc Hind. unfold merged_row. revert rep v.
  induction olders as [|r olders IH]; intros rep v Hv; simpl.
  - rewrite Hv. unfold fill. by destruct (missing v).
  - pose proof (backfill_row_lookup cols r rep c) as Hstep.
    rewrite decide_True in Hstep by done. rewrite Hv in Hstep.
    destruct (r !! c) as [w|] eqn:Hw; simpl in Hstep.
    + destruct (missing v && present w) eqn:Hmp.
      * rewrite (IH _ w Hstep). apply andb_true_iff in Hmp as [Hm Hp].
        rewrite fill_present by done. unfold fill. simpl. by rewrite Hm, Hp.
      * rewrite (IH _ v Hstep). unfold fill. simpl.
        destruct (missing v) eqn:Hm; [|done]. simpl in Hmp. by rewrite Hmp.
    + by rewrite (IH _ v Hstep).
Qed.

Lemma merged_row_industry cols rep olders :
  merged_row cols rep olders !! "industry" = rep !! "industry".
Proof.
  unfold merged_row. revert rep.
  induction olders as [|r olders IH]; intros rep; simpl; [done|].
  rewrite IH, backfill_row_lookup. case_decide as H; [|done]. by destruct H.
Qed.

Lemma merged_row_snoc cols rep olders r :
  merged_row cols rep (olders ++ [r]) = backfill_row cols r (merged_row cols rep olders).
Proof. unfold merged_row. by rewrite foldl_snoc. Qed.

(** ** The accumulated industries *)

(** The same list read from the oldest record to the newest: every value
    at its most recent place. *)
Lemma accumulate_spec v0 olds :
  accumulate v0 olds = remove_dups (reverse (v0 :: olds)).
Proof.
  unfold accumulate. induction olds as [|x olds IH] using rev_ind; [done|].
  rewrite foldl_snoc, IH. unfold add_industry.
  rewrite app_comm_cons, reverse_snoc.
  case_bool_decide as Hin; rewrite elem_of_remove_dups in Hin; simpl remove_dups;
    by destruct (decide_rel elem_of x (reverse (v0 :: olds))).
Qed.

(** ** The pass over the rows *)

Lemma group_snoc k rows ir :
  group k (rows ++ [ir]) = group k rows ++ (if decide (key_is k ir) then [ir] else []).
Proof. unfold group. rewrite filter_app. f_equal. Qed.

Lemma group_snoc_other k rows i r name :
  generate_name r = Ok name → k ≠ name → group k (rows ++ [(i, r)]) = group k rows.
Proof.
  intros Hname Hne. rewrite group_snoc, decide_False; [by rewrite app_nil_r|].
  unfold key_is. simpl. congruence.
Qed.

Lemma group_snoc_same rows i r name :
  generate_name r = Ok name → group name (rows ++ [(i, r)]) = group name rows ++ [(i, r)].
Proof. intros Hname. by rewrite group_snoc, decide_True. Qed.

Lemma elem_of_group k rows ir : ir ∈ group k rows ↔ key_is k ir ∧ ir ∈ rows.
Proof. apply list_elem_of_filter. Qed.

Lemma history_snoc rep olders r :
  history rep (olders ++ [r]) = add_industry (history rep olders) (industry_of r).
Proof.
  unfold history, accumulate. rewrite fmap_app.
  change (industry_of <$> [r]) with [industry_of r]. by rewrite foldl_snoc.
Qed.

(** ** The list of industries that the pass builds *)

Lemma collected_snoc {P : Pandas} rep olders jr :
  collected rep (olders ++ [jr]) = add_found (collected rep olders) jr.
Proof. unfold collected. by rewrite foldl_snoc. Qed.

Lemma contains_elem_of {P : Pandas} j v l : contains j v l = true → v ∈ l.
Proof.
  destruct v; simpl; [intros [_ H]%andb_true_iff|intros H..];
    by apply bool_decide_eq_true in H.
Qed.

Lemma contains_known {P : Pandas} j v l :
  v ≠ VNull → contains j v l = bool_decide (v ∈ l).
Proof. by destruct v. Qed.

(** Whatever the test finds, the list holds the industries of the rows of
    the identity and no other value. *)
Lemma elem_of_collected {P : Pandas} rep olders x :
  x ∈ collected rep olders ↔ x = industry_of rep ∨ x ∈ industry_of <$> olders.*2.
Proof.
  induction olders as [|[j r] olders IH] using rev_ind.
  - unfold collected. simpl. rewrite list_elem_of_singleton, elem_of_nil. by_cases.
  - rewrite collected_snoc, !fmap_app, elem_of_app. simpl.
    rewrite list_elem_of_singleton. unfold add_found. simpl.
    destruct (contains j (industry_of r) (collected rep olders)) eqn:Hc.
    + apply contains_elem_of in Hc. rewrite IH.
      split; [by_cases|]. intros [Hx|[Hx|Hx]]; [by_cases..|]. subst x. by apply IH.
    + rewrite elem_of_cons, IH. by_cases.
Qed.

(** A list that [concat_industries] takes was built as if every value were
    compared by equality: a missing value that meets no object of its own
    makes a list of two values that are not all strings. *)
Lemma collected_history {P : Pandas} rep olders :
  joinable (collected rep olders) = true →
  collected rep olders = history rep olders.*2.
Proof.
  induction olders as [|[j r] olders IH] using rev_ind; [done|].
  rewrite collected_snoc, fmap_app. change (snd <$> [(j, r)]) with [r].
  rewrite history_snoc. unfold add_found. simpl.
  destruct (contains j (industry_of r) (collected rep olders)) eqn:Hc.
  - intros Hjoin. rewrite <- IH by done. unfold add_industry.
    rewrite bool_decide_eq_true_2; [done|]. by eapply contains_elem_of.
  - destruct (collected rep olders) as [|c l] eqn:Hl.
    { exfalso. assert (industry_of rep ∈ collected rep olders) as Hin
        by (apply elem_of_collected; by left).
      rewrite Hl in Hin. by apply elem_of_nil in Hin. }
    unfold joinable. simpl. intros [Hv Hstr]%andb_true_iff.
    rewrite <- IH by (unfold joinable; simpl in *; rewrite Hstr; apply orb_true_r).
    unfold add_industry. rewrite contains_known in Hc by (by destruct (industry_of r)).
    by rewrite Hc.
Qed.

(** ** The pass over the rows *)

Section MergePass.

Context {P : Pandas} (cols : list string) (frame0 : list row).

Lemma invariant_start : invariant cols frame0 [] (frame0, no_records).
Proof.
  split; simpl; try done.
  - constructor.
  - intros k. rewrite lookup_empty. split; [by intros ?%elem_of_nil|by intros [??]].
  - intros k. rewrite lookup_empty. split; [by intros [??]|by intros [_ ?]].
Qed.

(** The label of a representative is a label of a seen row. *)
Lemma invariant_label seen st k i inds :
  invariant cols frame0 seen st → entries st.2 !! k = Some (i, inds) → i ∈ seen.*1.
Proof.
  intros Hinv He. destruct (inv_entry _ _ _ _ Hinv _ _ _ He) as (rep & olders & Hg & _).
  assert ((i, rep) ∈ group k seen) as [_ Hin]%elem_of_group by (rewrite Hg; left).
  by apply (list_elem_of_fmap_2 fst) in Hin.
Qed.

(** Two identities do not share a representative. *)
Lemma invariant_labels_differ seen st k1 k2 i inds1 inds2 :
  invariant cols frame0 seen st → NoDup seen.*1 →
  entries st.2 !! k1 = Some (i, inds1) → entries st.2 !! k2 = Some (i, inds2) →
  k1 = k2.
Proof.
  intros Hinv Hnd H1 H2.
  destruct (inv_entry _ _ _ _ Hinv _ _ _ H1) as (rep1 & olders1 & Hg1 & _).
  destruct (inv_entry _ _ _ _ Hinv _ _ _ H2) as (rep2 & olders2 & Hg2 & _).
  assert ((i, rep1) ∈ group k1 seen) as [Hk1 Hin1]%elem_of_group by (rewrite Hg1; left).
  assert ((i, rep2) ∈ group k2 seen) as [Hk2 Hin2]%elem_of_group by (rewrite Hg2; left).
  pose proof (NoDup_fst_functional _ _ _ _ Hnd Hin1 Hin2) as ->.
  unfold key_is in *. simpl in *. congruence.
Qed.

Lemma step_skip seen st j r :
  invariant cols frame0 seen st → generate_name r = Ok "" →
  invariant cols frame0 (seen ++ [(j, r)]) st.
Proof.
  intros Hinv Hname.
  assert (∀ k, k ≠ "" → group k (seen ++ [(j, r)]) = group k seen) as Hg
    by (intros k Hk; by apply (group_snoc_other k seen j r "")).
  split; try apply Hinv.
  - intros k. rewrite (inv_dom _ _ _ _ Hinv k).
    split; intros [Hk Hne]; (split; [done|]); by rewrite ?Hg in *.
  - intros k i inds He.
    assert (k ≠ "") as Hk by (by apply (inv_dom _ _ _ _ Hinv k)).
    rewrite (Hg k Hk). by apply (inv_entry _ _ _ _ Hinv).
Qed.

Lemma step_new seen frame fr j r name ind :
  invariant cols frame0 seen (frame, fr) → NoDup (seen ++ [(j, r)]).*1 →
  frame0 !! j = Some r → generate_name r = Ok name → name ≠ "" →
  entries fr !! name = None → r !! "industry" = Some ind →
  invariant cols frame0 (seen ++ [(j, r)])
    (frame, mkRecords (keys fr ++ [name]) (<[name := (j, [ind])]> (entries fr))).
Proof.
  intros Hinv Hnd Hj Hname Hne Hnone Hind.
  assert (j ∉ seen.*1) as Hfresh.
  { rewrite fmap_app in Hnd. apply NoDup_app in Hnd as (_ & Hnd & _).
    intros Hin. apply (Hnd j Hin). simpl. left. }
  assert (group name seen = []) as Hempty.
  { destruct (group name seen) eqn:Hg; [done|]. exfalso.
    assert (is_Some (entries fr !! name)) as [? He]
      by (apply (inv_dom _ _ _ _ Hinv name); split; [done|]; simpl in *; congruence).
    congruence. }
  split; simpl.
  - apply NoDup_app. split; [apply Hinv|]. split; [|apply NoDup_singleton].
    intros k Hk ->%list_elem_of_singleton.
    apply (inv_keys _ _ _ _ Hinv) in Hk as [? Hk]. simpl in Hk. congruence.
  - intros k. rewrite elem_of_app, list_elem_of_singleton, lookup_insert_is_Some.
    rewrite (inv_keys _ _ _ _ Hinv k). simpl.
    destruct (decide (name = k)) as [->|]; by_cases.
  - intros k. rewrite lookup_insert_is_Some.
    destruct (decide (name = k)) as [<-|Hk].
    + rewrite (group_snoc_same seen j r name Hname), Hempty. by_cases.
    + rewrite (group_snoc_other k seen j r name Hname) by done.
      rewrite <- (inv_dom _ _ _ _ Hinv k). simpl. by_cases.
  - intros k i inds. rewrite lookup_insert_Some.
    intros [[<- [= <- <-]]|[Hk He]].
    + exists r, []. rewrite (group_snoc_same seen j r name Hname), Hempty.
      split; [done|]. split.
      * unfold collected, industry_of. simpl. by rewrite Hind.
      * simpl. rewrite <- Hj. apply (inv_frame _ _ _ _ Hinv). simpl.
        intros k i inds He ->. apply Hfresh.
        by apply (invariant_label seen (frame, fr) k j inds).
    + rewrite (group_snoc_other k seen j r name Hname) by done.
      by apply (inv_entry _ _ _ _ Hinv).
  - apply Hinv.
  - intros j' Hj'. apply (inv_frame _ _ _ _ Hinv). simpl. intros k i inds He.
    apply (Hj' k i inds). rewrite lookup_insert_ne; [done|]. congruence.
Qed.

Lemma step_old seen frame fr j r name i inds :
  invariant cols frame0 seen (frame, fr) → NoDup seen.*1 →
  generate_name r = Ok name → name ≠ "" →
  entries fr !! name = Some (i, inds) →
  ∃ cur, frame !! i = Some cur ∧
  invariant cols frame0 (seen ++ [(j, r)])
    (<[i := backfill_row cols r cur]> frame,
     mkRecords (keys fr) (<[name := (i, add_found inds (j, r))]> (entries fr))).
Proof.
  intros Hinv Hnd Hname Hne He.
  destruct (inv_entry _ _ _ _ Hinv _ _ _ He) as (rep & olders & Hg & Hinds & Hcur).
  simpl in Hcur. eexists. split; [exact Hcur|].
  assert (i < length frame) as Hlt by by eapply lookup_lt_Some.
  split; simpl.
  - apply Hinv.
  - intros k. rewrite lookup_insert_is_Some, (inv_keys _ _ _ _ Hinv k). simpl.
    destruct (decide (name = k)) as [<-|]; [|by_cases].
    rewrite He. by_cases.
  - intros k. rewrite lookup_insert_is_Some.
    destruct (decide (name = k)) as [<-|Hk].
    + rewrite (group_snoc_same seen j r name Hname), Hg. by_cases.
    + rewrite (group_snoc_other k seen j r name Hname) by done.
      rewrite <- (inv_dom _ _ _ _ Hinv k). simpl. by_cases.
  - intros k i' inds'. rewrite lookup_insert_Some.
    intros [[<- [= <- <-]]|[Hk He']].
    + exists rep, (olders ++ [(j, r)]).
      rewrite (group_snoc_same seen j r name Hname), Hg. split; [done|].
      rewrite fmap_app. change (snd <$> [(j, r)]) with [r].
      rewrite collected_snoc, merged_row_snoc, <- Hinds.
      split; [done|]. by apply list_lookup_insert_eq.
    + rewrite (group_snoc_other k seen j r name Hname) by done.
      destruct (inv_entry _ _ _ _ Hinv _ _ _ He') as (rep' & olders' & Hg' & Hinds' & Hcur').
      exists rep', olders'. split; [done|]. split; [done|].
      rewrite list_lookup_insert_ne; [done|]. intros ->. apply Hk.
      by apply (invariant_labels_differ seen (frame, fr) name k i' inds inds').
  - rewrite length_insert. apply Hinv.
  - intros j' Hj'.
    rewrite list_lookup_insert_ne.
    + apply (inv_frame _ _ _ _ Hinv). simpl. intros k i' inds' He'.
      destruct (decide (name = k)) as [<-|Hk].
      * rewrite He in He'. injection He' as <- <-.
        apply (Hj' name i (add_found inds (j, r))). by rewrite lookup_insert_eq.
      * apply (Hj' k i' inds'). by rewrite lookup_insert_ne.
    + apply (Hj' name i (add_found inds (j, r))). by rewrite lookup_insert_eq.
Qed.

Lemma merge_step_ok seen frame fr j r :
  invariant cols frame0 seen (frame, fr) → NoDup (seen ++ [(j, r)]).*1 → row_ok frame0 (j, r) →
  ∃ st', merge_step cols (frame, fr) (j, r) = Ok st'
         ∧ invariant cols frame0 (seen ++ [(j, r)]) st'.
Proof.
  intros Hinv Hnd (Hj & name & Hname & Hcell). simpl in *.
  assert (NoDup seen.*1) as Hnd'.
  { rewrite fmap_app in Hnd. by apply NoDup_app in Hnd as (? & _). }
  unfold merge_step. rewrite Hname. simpl.
  destruct (String.eqb_spec name "") as [->|Hne].
  { eexists. split; [done|]. by apply step_skip. }
  destruct (Hcell Hne) as [ind Hind]. unfold getitem. rewrite Hind.
  destruct (entries fr !! name) as [[i inds]|] eqn:He; simpl.
  - destruct (step_old seen frame fr j r name i inds) as (cur & Hcur & Hnew);
      try done.
    rewrite (backfill_frame cols r i frame cur Hcur).
    unfold add_found, industry_of in Hnew. simpl in Hnew. rewrite Hind in Hnew.
    simpl in Hnew.
    destruct (contains j ind inds); (eexists; split; [done|]); [|done].
    rewrite insert_id in Hnew by done. by destruct fr.
  - eexists. split; [done|]. by apply step_new.
Qed.

Lemma merge_pass_ok rest seen st :
  invariant cols frame0 seen st → NoDup (seen ++ rest).*1 → Forall (row_ok frame0) rest →
  ∃ st', merge_pass cols rest st = Ok st' ∧ invariant cols frame0 (seen ++ rest) st'.
Proof.
  revert seen st. induction rest as [|[j r] rest IH]; intros seen st Hinv Hnd Hok.
  - exists st. by rewrite app_nil_r.
  - apply Forall_cons in Hok as [Hjr Hok]. destruct st as [frame fr].
    rewrite cons_middle, app_assoc in Hnd.
    destruct (merge_step_ok seen frame fr j r) as (st1 & Hstep & Hinv1); try done.
    { rewrite fmap_app in Hnd. by apply NoDup_app in Hnd as (? & _). }
    destruct (IH _ st1 Hinv1 Hnd Hok) as (st' & Hpass & Hinv').
    exists st'. rewrite cons_middle, app_assoc. split; [|done].
    change (merge_pass cols ((j, r) :: rest) (frame, fr))
      with (merge_step cols (frame, fr) (j, r) ≫= merge_pass cols rest).
    by rewrite Hstep.
Qed.

(** A turn that does not raise has read a row whose identity resolves
    and, unless the identity is empty, its industry. *)
Lemma merge_step_inv st ir st' :
  merge_step cols st ir = Ok st' →
  ∃ name, generate_name ir.2 = Ok name
          ∧ (name ≠ "" → is_Some (ir.2 !! "industry")).
Proof.
  destruct st as [frame fr], ir as [j r]. unfold merge_step. simpl.
  destruct (generate_name r) as [name|]; simpl; [|done].
  intros Hstep. exists name. split; [done|]. intros Hne.
  destruct (String.eqb_spec name ""); [done|].
  unfold getitem in Hstep.
  destruct (r !! "industry"); [done|].
  by destruct (entries fr !! name) as [[??]|].
Qed.

Lemma merge_pass_inv rows st st' :
  merge_pass cols rows st = Ok st' →
  Forall (fun ir => ∃ name, generate_name ir.2 = Ok name
                            ∧ (name ≠ "" → is_Some (ir.2 !! "industry"))) rows.
Proof.
  revert st. induction rows as [|ir rows IH]; intros st; [constructor|].
  change (merge_pass cols (ir :: rows) st)
    with (merge_step cols st ir ≫= merge_pass cols rows).
  destruct (merge_step cols st ir) as [st1|] eqn:Hstep; simpl; [|done].
  intros Hpass. constructor; [by eapply merge_step_inv|by eapply IH].
Qed.

End MergePass.

(** ** The serialised history and the result *)

Lemma strings_of_text l :
  forallb is_string l = true → strings_of l = Ok (text <$> l).
Proof.
  induction l as [|v l IH]; [done|]. simpl.
  intros [Hv Hl]%andb_true_iff. destruct v; try done. simpl. by rewrite IH.
Qed.

Lemma strings_of_raises l :
  forallb is_string l = false → strings_of l = Raise TypeError.
Proof.
  induction l as [|v l IH]; [done|]. simpl.
  destruct v; simpl; try done. intros Hl. by rewrite (IH Hl).
Qed.

Lemma strings_of_exn l e : strings_of l = Raise e → e = TypeError.
Proof.
  induction l as [|v l IH]; [done|]. simpl. destruct v; try by intros [= <-].
  destruct (strings_of l); simpl; [done|]. intros [= <-]. by apply IH.
Qed.

Lemma unjoinable_joinable entry : unjoinable entry = negb (joinable entry.2).
Proof.
  unfold unjoinable, joinable.
  by destruct (1 <? length entry.2), (forallb is_string entry.2).
Qed.

Lemma concat_industries_ok vals frame :
  NoDup vals.*1 →
  Forall (fun v => joinable v.2 = true) vals →
  ∃ frame', concat_industries frame vals = Ok (frame', vals.*1)
    ∧ (∀ i inds r, (i, inds) ∈ vals → frame !! i = Some r →
         frame' !! i = Some (finalize inds r))
    ∧ (∀ j, j ∉ vals.*1 → frame' !! j = frame !! j).
Proof.
  revert frame. induction vals as [|[i inds] vals IH]; intros frame Hnd Hstr.
  { exists frame. split; [done|]. split; [|done]. by intros ??? ?%elem_of_nil. }
  simpl in Hnd. apply NoDup_cons in Hnd as [Hi Hnd].
  apply Forall_cons in Hstr as [Hinds Hstr]. simpl in Hinds.
  set (frame1 := if 1 <? length inds
                 then alter (<["industry" := serialize inds]>) i frame else frame).
  assert (∀ j, i ≠ j → frame1 !! j = frame !! j) as Hother.
  { intros j Hj. unfold frame1. destruct (1 <? length inds); [|done].
    by apply list_lookup_alter_ne. }
  assert (∀ r, frame !! i = Some r → frame1 !! i = Some (finalize inds r)) as Hsame.
  { intros r Hr. unfold frame1, finalize. destruct (1 <? length inds); [|done].
    by rewrite list_lookup_alter_eq, Hr. }
  destruct (IH frame1 Hnd Hstr) as (frame' & Hrun & Hin & Hout).
  exists frame'. split; [|split].
  - simpl.
    replace (if 1 <? length inds
             then strings_of inds ≫= (λ ss, Ok (alter (<["industry" := VStr (";" +:+ Py.join ";" ss)]>) i frame))
             else Ok frame) with (Ok frame1).
    { simpl. by rewrite Hrun. }
    unfold frame1, joinable in *. destruct (1 <? length inds); [|done].
    simpl in Hinds. by rewrite (strings_of_text inds Hinds).
  - intros i' inds' r [[= -> ->]|Hr]%elem_of_cons Hlook.
    + rewrite Hout by done. by apply Hsame.
    + apply Hin; [done|]. rewrite Hother; [done|]. intros ->. apply Hi.
      by apply (list_elem_of_fmap_2 fst) in Hr.
  - intros j Hj. apply not_elem_of_cons in Hj as [Hji Hj].
    rewrite Hout by done. by apply Hother.
Qed.

Lemma concat_industries_labels vals frame frame' indexes :
  concat_industries frame vals = Ok (frame', indexes) → indexes = vals.*1.
Proof.
  revert frame frame' indexes.
  induction vals as [|[i inds] vals IH]; intros frame frame' indexes; simpl.
  - by intros [= _ <-].
  - destruct (1 <? length inds).
    + destruct (strings_of inds); simpl; [|done].
      destruct (concat_industries _ vals) as [[f idx]|] eqn:Hrest; simpl; [|done].
      intros [= _ <-]. f_equal. by eapply IH.
    + simpl. destruct (concat_industries frame vals) as [[f idx]|] eqn:Hrest;
        simpl; [|done].
      intros [= _ <-]. f_equal. by eapply IH.
Qed.

Lemma concat_industries_exn vals frame e :
  concat_industries frame vals = Raise e → e = TypeError.
Proof.
  revert frame. induction vals as [|[i inds] vals IH]; intros frame; [done|].
  simpl. destruct (1 <? length inds).
  - destruct (strings_of inds) eqn:Hs; simpl.
    + destruct (concat_industries _ vals) as [[f idx]|] eqn:Hrest; simpl; [done|].
      intros [= <-]. by eapply IH.
    + intros [= <-]. by eapply strings_of_exn.
  - simpl. destruct (concat_industries frame vals) as [[f idx]|] eqn:Hrest;
      simpl; [done|].
    intros [= <-]. by eapply IH.
Qed.

Lemma concat_industries_unjoinable vals frame :
  existsb unjoinable vals = true →
  concat_industries frame vals = Raise TypeError.
Proof.
  revert frame. induction vals as [|[i inds] vals IH]; intros frame; [done|].
  simpl. intros [Hbad|Hrest]%orb_true_iff.
  - unfold unjoinable in Hbad. simpl in Hbad.
    apply andb_true_iff in Hbad as [-> Hstr%negb_true_iff].
    by rewrite (strings_of_raises inds Hstr).
  - destruct (1 <? length inds).
    + destruct (strings_of inds) eqn:Hs; simpl.
      * by rewrite (IH _ Hrest).
      * by rewrite (strings_of_exn _ _ Hs).
    + simpl. by rewrite (IH _ Hrest).
Qed.

(** When [concat_industries] returns, every list was one that it takes. *)
Lemma concat_industries_joinable vals frame res :
  concat_industries frame vals = Ok res →
  Forall (fun v => joinable v.2 = true) vals.
Proof.
  intros Hrun. apply Forall_forall. intros v Hv.
  destruct (joinable v.2) eqn:Hj; [done|]. exfalso.
  assert (existsb unjoinable vals = true) as Hbad.
  { apply existsb_exists. exists v. split; [by apply list_elem_of_In|].
    by rewrite unjoinable_joinable, Hj. }
  by rewrite (concat_industries_unjoinable vals frame Hbad) in Hrun.
Qed.

Lemma loc_ok frame indexes :
  (∀ i, i ∈ indexes → is_Some (frame !! i)) →
  ∃ out, loc frame indexes = Ok out
         ∧ Forall2 (fun i o => o.1 = i ∧ frame !! i = Some o.2) indexes out.
Proof.
  induction indexes as [|i indexes IH]; intros Hall.
  { exists []. by split; [|constructor]. }
  destruct (Hall i) as [r Hr]; [left|].
  destruct IH as (out & Hloc & Hout); [intros; apply Hall; by right|].
  exists ((i, r) :: out). simpl. rewrite Hr, Hloc. split; [done|].
  by constructor.
Qed.

Lemma loc_inv frame indexes out :
  loc frame indexes = Ok out →
  Forall2 (fun i o => o.1 = i ∧ frame !! i = Some o.2) indexes out.
Proof.
  revert out. induction indexes as [|i indexes IH]; intros out; simpl.
  - intros [= <-]. constructor.
  - destruct (frame !! i) as [r|] eqn:Hr; [|done].
    destruct (loc frame indexes) as [out'|]; simpl; [|done].
    intros [= <-]. constructor; [done|]. by apply IH.
Qed.

Lemma loc_labels frame indexes out :
  loc frame indexes = Ok out → out.*1 = indexes.
Proof.
  revert out. induction indexes as [|i indexes IH]; intros out; simpl.
  - by intros [= <-].
  - destruct (frame !! i); [|done].
    destruct (loc frame indexes) as [out'|]; simpl; [|done].
    intros [= <-]. simpl. f_equal. by apply IH.
Qed.

Lemma values_lookup (fr : records) :
  (∀ k, k ∈ keys fr → is_Some (entries fr !! k)) →
  Forall2 (fun k v => entries fr !! k = Some v) (keys fr) (values fr).
Proof.
  unfold values. induction (keys fr) as [|k ks IH]; intros Hall; [constructor|].
  destruct (Hall k) as [v Hv]; [left|]. simpl. rewrite Hv. simpl.
  constructor; [done|]. apply IH. intros; apply Hall; by right.
Qed.

(** ** The column of the instants *)

Lemma forallb_lookup {A} (f : A → bool) (l : list A) i x :
  forallb f l = true → l !! i = Some x → f x = true.
Proof.
  revert i. induction l as [|y l IH]; intros i; [done|]. simpl.
  intros [Hy Hl]%andb_true_iff. destruct i as [|i]; simpl.
  - by intros [= <-].
  - by apply IH.
Qed.

(** A row of a frame has a cell for a column exactly when the frame has
    the column. *)
Lemma shape_cell df i r c :
  data df !! i = Some r → is_Some (r !! c) ↔ c ∈ columns df.
Proof.
  intros Hr. pose proof (forallb_lookup _ _ _ _ (shape df) Hr) as Hs.
  apply bool_decide_eq_true in Hs.
  by rewrite <- elem_of_dom, Hs, elem_of_list_to_set.
Qed.

Lemma to_datetime_column_readable rows :
  forallb readable rows = true → to_datetime_column rows = Ok rows.
Proof.
  induction rows as [|r rows IH]; [done|]. simpl.
  intros [Hr Hrows]%andb_true_iff. rewrite (IH Hrows).
  unfold readable, getitem in *.
  destruct (r !! "createdAt") as [[| |t]|] eqn:Hc; try done; simpl;
    by rewrite insert_id.
Qed.

Lemma to_datetime_column_inv rows rows' :
  to_datetime_column rows = Ok rows' →
  rows' = rows ∧ forallb readable rows = true.
Proof.
  revert rows'. induction rows as [|r rows IH]; intros rows'; simpl.
  - by intros [= <-].
  - unfold getitem.
    destruct (r !! "createdAt") as [[| |t]|] eqn:Hc; try done; simpl;
      (destruct (to_datetime_column rows) as [rest|]; simpl; [|done]);
      intros [= <-]; destruct (IH rest eq_refl) as [-> Hrest];
      (split; [by rewrite insert_id|]); unfold readable at 1; by rewrite Hc.
Qed.

Lemma to_datetime_column_raises rows :
  forallb has_createdAt rows = true → existsb unreadable rows = true →
  to_datetime_column rows = Raise ValueError.
Proof.
  induction rows as [|r rows IH]; [done|]. simpl.
  intros [Hr Hall]%andb_true_iff Hex. unfold has_createdAt, unreadable, getitem in *.
  destruct (r !! "createdAt") as [[|s|t]|]; try done; simpl in *;
    by rewrite (IH Hall Hex).
Qed.

Lemma convert_createdAt_inv df rows :
  convert_createdAt df = Ok rows →
  "createdAt" ∈ columns df ∧ rows = data df ∧ forallb readable (data df) = true.
Proof.
  unfold convert_createdAt. case_bool_decide; [|done].
  intros Hrows%to_datetime_column_inv. by_cases.
Qed.

Lemma convert_createdAt_readable df :
  "createdAt" ∈ columns df → forallb readable (data df) = true →
  convert_createdAt df = Ok (data df).
Proof.
  intros Hcol Hall. unfold convert_createdAt.
  rewrite bool_decide_eq_true_2 by done. by apply to_datetime_column_readable.
Qed.

(** ** The characterisation of the result *)

Lemma elem_of_history rep olders x :
  x ∈ history rep olders ↔ x = industry_of rep ∨ x ∈ industry_of <$> olders.
Proof.
  unfold history. rewrite accumulate_spec, elem_of_remove_dups, elem_of_reverse.
  apply elem_of_cons.
Qed.

Lemma values_labels_nodup {P : Pandas} cols frame0 seen frame fr :
  invariant cols frame0 seen (frame, fr) → NoDup seen.*1 →
  NoDup (values fr).*1.
Proof.
  intros Hinv Hnd.
  pose proof (values_lookup fr) as Hvals.
  assert (Forall2 (fun k v => entries fr !! k = Some v) (keys fr) (values fr)) as H2.
  { apply Hvals. intros k Hk. by apply (inv_keys _ _ _ _ Hinv k). }
  apply NoDup_alt. intros n m i. rewrite !list_lookup_fmap.
  destruct (values fr !! n) as [[i1 inds1]|] eqn:Hn; [|done].
  destruct (values fr !! m) as [[i2 inds2]|] eqn:Hm; [|done].
  simpl. intros [= ->] [= ->].
  destruct (Forall2_lookup_r _ _ _ _ _ H2 Hn) as (k1 & Hk1 & He1).
  destruct (Forall2_lookup_r _ _ _ _ _ H2 Hm) as (k2 & Hk2 & He2).
  assert (k1 = k2) as ->
    by by apply (invariant_labels_differ cols frame0 seen (frame, fr) k1 k2 i inds1 inds2).
  by apply (proj1 (NoDup_alt (keys fr)) (inv_nodup _ _ _ _ Hinv) n m k2).
Qed.

(** The state of the pass when it has run over the frame without raising. *)
Lemma merge_pass_state {P : Pandas} df st :
  merge_pass (columns df) (iterrows (data df)) (data df, no_records) = Ok st →
  invariant (columns df) (data df) (iterrows (data df)) st.
Proof.
  intros Hpass.
  destruct (merge_pass_ok (columns df) (data df) (iterrows (data df)) []
              (data df, no_records)) as (st' & Hpass' & Hinv);
    [apply invariant_start|apply NoDup_iterrows| |].
  - pose proof (merge_pass_inv _ _ _ _ Hpass) as Hrows.
    apply Forall_forall. intros [i r] Hin.
    split; [by apply elem_of_iterrows|]. by eapply Forall_forall in Hrows.
  - simpl in Hinv. congruence.
Qed.

(** What [concat_industries] and [loc] make of the state of the pass. *)
Lemma result_of_state {P : Pandas} df frame fr frame' indexes out :
  invariant (columns df) (data df) (iterrows (data df)) (frame, fr) →
  concat_industries frame (values fr) = Ok (frame', indexes) →
  loc frame' indexes = Ok out →
  NoDup (keys fr)
  ∧ (∀ k, k ∈ keys fr ↔ k ≠ "" ∧ group k (iterrows (data df)) ≠ [])
  ∧ Forall2 (fun k o => canonical (columns df) (iterrows (data df)) k = Some o)
            (keys fr) out
  ∧ (∀ k i rep olders, k ≠ "" → group k (iterrows (data df)) = (i, rep) :: olders →
       joinable (history rep olders.*2) = true).
Proof.
  intros Hinv Hcat Hloc. set (rows := iterrows (data df)) in *.
  assert (Forall2 (fun k v => entries fr !! k = Some v) (keys fr) (values fr)) as Hvals.
  { apply values_lookup. intros k Hk. by apply (inv_keys _ _ _ _ Hinv k). }
  pose proof (concat_industries_joinable _ _ _ Hcat) as Hjoin.
  rewrite Forall_forall in Hjoin.
  destruct (concat_industries_ok (values fr) frame) as (frame1 & Hrun & Hin & _);
    [eapply values_labels_nodup; [exact Hinv|apply NoDup_iterrows]
    |by apply Forall_forall|].
  rewrite Hcat in Hrun. injection Hrun as <- ->.
  apply loc_inv in Hloc.
  assert (∀ k v, entries fr !! k = Some v → v ∈ values fr) as Hentry.
  { intros k v He.
    assert (k ∈ keys fr) as [n Hn]%list_elem_of_lookup
      by (apply (inv_keys _ _ _ _ Hinv k); simpl; eauto).
    destruct (Forall2_lookup_l _ _ _ _ _ Hvals Hn) as (v' & Hv & He').
    simpl in *. rewrite He in He'. injection He' as <-.
    by eapply list_elem_of_lookup_2. }
  assert (∀ k i inds rep olders,
            entries fr !! k = Some (i, inds) → inds = collected rep olders →
            joinable (history rep olders.*2) = true
            ∧ inds = history rep olders.*2) as Hhist.
  { intros k i inds rep olders He Hinds.
    pose proof (Hjoin (i, inds) (Hentry _ _ He)) as Hj. simpl in Hj.
    rewrite Hinds in Hj. pose proof (collected_history rep olders Hj) as Heq.
    split; [by rewrite <- Heq|by rewrite Hinds]. }
  split; [apply (inv_nodup _ _ _ _ Hinv)|]. split.
  { intros k. rewrite (inv_keys _ _ _ _ Hinv k). apply (inv_dom _ _ _ _ Hinv k). }
  split.
  - apply Forall2_same_length_lookup_2.
    { apply Forall2_length in Hvals, Hloc. rewrite length_fmap in Hloc. congruence. }
    intros n k [i' r'] Hk Ho.
    destruct (Forall2_lookup_l _ _ _ _ _ Hvals Hk) as ([i inds] & Hv & He).
    assert ((values fr).*1 !! n = Some i) as Hi by by rewrite list_lookup_fmap, Hv.
    destruct (Forall2_lookup_lr _ _ _ _ _ _ Hloc Hi Ho) as [Hl Hr]. simpl in *. subst i'.
    destruct (inv_entry _ _ _ _ Hinv _ _ _ He) as (rep & olders & Hg & Hinds & Hcur).
    apply list_elem_of_lookup_2 in Hv.
    rewrite (Hin i _ _ Hv Hcur) in Hr. injection Hr as <-.
    unfold canonical. rewrite Hg. do 3 f_equal.
    symmetry. by eapply Hhist.
  - intros k i rep olders Hne Hg.
    assert (is_Some (entries fr !! k)) as [[i' inds] He].
    { apply (inv_dom _ _ _ _ Hinv k). split; [done|]. simpl. by rewrite Hg. }
    destruct (inv_entry _ _ _ _ Hinv _ _ _ He) as (rep' & olders' & Hg' & Hinds & _).
    simpl in Hg'. rewrite Hg in Hg'. injection Hg' as <- <- <-.
    by eapply Hhist.
Qed.

(** Whenever [duplicate_management] returns: the frame had its column of
    instants, every instant was read or is missing, every identity
    resolved, the rows with an identity had an industry cell, the lists of
    industries were single values or strings, and the records of the result
    are the canonical records of the identities, in the order in which the
    pass met them. *)
Lemma duplicate_management_inv {P : Pandas} df out :
  duplicate_management df = Ok out →
  "createdAt" ∈ columns df
  ∧ forallb readable (data df) = true
  ∧ (∀ i r, data df !! i = Some r →
       ∃ name, generate_name r = Ok name
               ∧ (name ≠ "" → is_Some (r !! "industry")))
  ∧ (∀ k i rep olders, k ≠ "" → group k (iterrows (data df)) = (i, rep) :: olders →
       joinable (history rep olders.*2) = true)
  ∧ ∃ ks, NoDup ks
      ∧ (∀ k, k ∈ ks ↔ k ≠ "" ∧ group k (iterrows (data df)) ≠ [])
      ∧ Forall2 (fun k o => canonical (columns df) (iterrows (data df)) k = Some o)
                ks out.
Proof.
  unfold duplicate_management.
  destruct (convert_createdAt df) as [rows|] eqn:Hc; simpl; [|done].
  apply convert_createdAt_inv in Hc as (Hcol & -> & Hread).
  destruct (merge_pass _ _ _) as [[frame fr]|] eqn:Hpass; simpl; [|done].
  destruct (concat_industries _ _) as [[frame' indexes]|] eqn:Hcat; simpl; [|done].
  intros Hloc. split; [done|]. split; [done|].
  destruct (result_of_state df frame fr frame' indexes out)
    as (Hnd & Hks & Hout & Hjoin); [by apply merge_pass_state|done..|].
  split; [|split; [done|by exists (keys fr)]].
  intros i r Hi%elem_of_iterrows.
  pose proof (merge_pass_inv _ _ _ _ Hpass) as Hrows.
  rewrite Forall_forall in Hrows. apply (Hrows (i, r) Hi).
Qed.

Lemma record_ok_rows {P : Pandas} df i r :
  well_formed df = true → (i, r) ∈ iterrows (data df) → record_ok r = true.
Proof.
  intros [_ Hwf]%andb_true_iff Hin%elem_of_iterrows. by eapply forallb_lookup.
Qed.

Lemma record_ok_row_ok {P : Pandas} df i r :
  well_formed df = true → (i, r) ∈ iterrows (data df) → row_ok (data df) (i, r).
Proof.
  intros Hwf Hin. pose proof (record_ok_rows df i r Hwf Hin) as Hok.
  apply elem_of_iterrows in Hin. unfold record_ok in Hok.
  apply andb_true_iff in Hok as [[_ Hname]%andb_true_iff Hind].
  split; [done|]. simpl. destruct (generate_name r) as [name|]; [|done].
  exists name. split; [done|]. intros _. by destruct (r !! "industry").
Qed.

Lemma record_ok_industry r :
  record_ok r = true → is_string (industry_of r) = true.
Proof.
  unfold record_ok, industry_of. intros [_ Hind]%andb_true_iff.
  by destruct (r !! "industry") as [[]|].
Qed.

Lemma record_ok_readable r : record_ok r = true → readable r = true.
Proof.
  unfold record_ok, readable. by intros [[? _]%andb_true_iff _]%andb_true_iff.
Qed.

(** On a batch that the engine accepts, [duplicate_management] returns. *)
Lemma duplicate_management_returns {P : Pandas} df :
  well_formed df = true → ∃ out, duplicate_management df = Ok out.
Proof.
  intros Hwf. pose proof Hwf as [Hcol%bool_decide_eq_true Hall]%andb_true_iff.
  set (rows := iterrows (data df)).
  assert (Forall (row_ok (data df)) rows) as Hrows.
  { apply Forall_forall. intros [i r] Hin. by apply record_ok_row_ok. }
  destruct (merge_pass_ok (columns df) (data df) rows [] (data df, no_records))
    as ([frame fr] & Hpass & Hinv);
    [apply invariant_start|apply NoDup_iterrows|done|].
  simpl in Hinv.
  assert (Forall2 (fun k v => entries fr !! k = Some v) (keys fr) (values fr)) as Hvals.
  { apply values_lookup. intros k Hk. by apply (inv_keys _ _ _ _ Hinv k). }
  assert (∀ v, v ∈ values fr → ∃ k, entries fr !! k = Some v) as Hval.
  { intros v [n Hn]%list_elem_of_lookup.
    destruct (Forall2_lookup_r _ _ _ _ _ Hvals Hn) as (k & _ & He). eauto. }
  destruct (concat_industries_ok (values fr) frame) as (frame' & Hrun & Hin & _).
  { eapply values_labels_nodup; [exact Hinv|apply NoDup_iterrows]. }
  { apply Forall_forall. intros [i inds] [k He]%Hval. simpl.
    destruct (inv_entry _ _ _ _ Hinv _ _ _ He) as (rep & olders & Hg & -> & _).
    unfold joinable. apply orb_true_iff. right.
    apply forallb_forall. intros x Hx%list_elem_of_In%elem_of_collected.
    assert (∀ ir, ir ∈ (i, rep) :: olders → is_string (industry_of ir.2) = true) as Hstr.
    { intros [i' r'] Hir. rewrite <- Hg in Hir. apply elem_of_group in Hir as [_ Hir].
      by eapply record_ok_industry, record_ok_rows. }
    destruct Hx as [->|(r' & -> & ([i' r''] & -> & Hr')%list_elem_of_fmap)%list_elem_of_fmap].
    - apply (Hstr (i, rep)). left.
    - apply (Hstr (i', r'')). by right. }
  destruct (loc_ok frame' (values fr).*1) as (out & Hloc & Hout).
  { intros i ([i' inds] & -> & Hv)%list_elem_of_fmap. simpl.
    destruct (Hval _ Hv) as [k He].
    destruct (inv_entry _ _ _ _ Hinv _ _ _ He) as (rep & olders & _ & _ & Hcur).
    rewrite (Hin i' inds _ Hv Hcur). eauto. }
  exists out. unfold duplicate_management.
  rewrite convert_createdAt_readable; [|done|].
  - simpl. fold rows. rewrite Hpass. simpl. rewrite Hrun. simpl. exact Hloc.
  - apply forallb_forall. intros r Hr.
    eapply forallb_forall in Hall; [|exact Hr]. by apply record_ok_readable.
Qed.

Lemma duplicate_management_char {P : Pandas} df :
  well_formed df = true →
  ∃ ks out,
    duplicate_management df = Ok out
    ∧ NoDup ks
    ∧ (∀ k, k ∈ ks ↔ k ≠ "" ∧ group k (iterrows (data df)) ≠ [])
    ∧ Forall2 (fun k o => canonical (columns df) (iterrows (data df)) k = Some o)
              ks out.
Proof.
  intros Hwf. destruct (duplicate_management_returns df Hwf) as [out Hrun].
  destruct (duplicate_management_inv df out Hrun) as (_ & _ & _ & _ & ks & Hks).
  exists ks, out. by_cases.
Qed.

Lemma canonical_Some cols rows k o :
  canonical cols rows k = Some o →
  ∃ rep olders,
    group k rows = (o.1, rep) :: olders
    ∧ o.2 = finalize (history rep olders.*2) (merged_row cols rep olders.*2).
Proof.
  unfold canonical. destruct (group k rows) as [|[i rep] olders]; [done|].
  intros [= <-]. by exists rep, olders.
Qed.

Lemma finalize_lookup_ne inds r c :
  c ≠ "industry" → finalize inds r !! c = r !! c.
Proof.
  intros Hc. unfold finalize. destruct (1 <? length inds); [|done].
  by rewrite lookup_insert_ne.
Qed.

Lemma finalize_industry inds r :
  finalize inds r !! "industry" =
  if 1 <? length inds then Some (serialize inds) else r !! "industry".
Proof.
  unfold finalize. destruct (1 <? length inds); [|done]. by rewrite lookup_insert_eq.
Qed.

Lemma group_sorted {P : Pandas} k rows :
  StronglySorted listed_before (group k (iterrows rows)).
Proof. apply StronglySorted_filter_list, sort_values_sorted. Qed.

Lemma group_head_rows {P : Pandas} k rows i rep olders :
  group k (iterrows rows) = (i, rep) :: olders →
  rows !! i = Some rep ∧ generate_name rep = Ok k.
Proof.
  intros Hg. assert ((i, rep) ∈ group k (iterrows rows)) as Hin by (rewrite Hg; left).
  apply elem_of_group in Hin as [Hk Hin]. by apply elem_of_iterrows in Hin.
Qed.

Lemma group_nonempty {P : Pandas} k rows :
  group k (iterrows rows) ≠ [] ↔ ∃ r, r ∈ rows ∧ generate_name r = Ok k.
Proof.
  split.
  - destruct (group k (iterrows rows)) as [|[i r] l] eqn:Hg; [done|]. intros _.
    apply group_head_rows in Hg as [Hr Hk]. exists r. split; [|done].
    by eapply list_elem_of_lookup_2.
  - intros (r & [i Hi]%list_elem_of_lookup & Hk) Hg.
    assert ((i, r) ∈ group k (iterrows rows)) as Hin
      by (apply elem_of_group; split; [done|by apply elem_of_iterrows]).
    rewrite Hg in Hin. by apply elem_of_nil in Hin.
Qed.

Lemma NoDup_group_labels {P : Pandas} k rows : NoDup (group k (iterrows rows)).*1.
Proof.
  eapply sublist_NoDup; [apply NoDup_iterrows|].
  apply fmap_sublist, sublist_filter.
Qed.

Lemma remove_dups_nil {A} `{EqDecision A} (l : list A) : remove_dups l = [] → l = [].
Proof.
  destruct l as [|x l]; [done|]. intros H.
  assert (x ∈ remove_dups (x :: l)) as Hin by (apply elem_of_remove_dups; left).
  rewrite H in Hin. by apply elem_of_nil in Hin.
Qed.

Lemma last_remove_dups {A} `{EqDecision A} (l : list A) : last (remove_dups l) = last l.
Proof.
  induction l as [|x l IH]; [done|]. simpl remove_dups.
  destruct (decide_rel elem_of x l) as [Hin|Hin].
  - rewrite IH. destruct l; [by apply elem_of_nil in Hin|done].
  - rewrite !last_cons, IH. destruct l as [|y l]; [done|]. done.
Qed.

(** ** The identity keys of a batch *)

Lemma elem_of_identity_keys df k :
  k ∈ identity_keys df ↔ k ≠ "" ∧ ∃ r, r ∈ data df ∧ generate_name r = Ok k.
Proof.
  unfold identity_keys, identity_of.
  rewrite elem_of_remove_dups, list_elem_of_filter, list_elem_of_omap.
  split; intros [Hk (r & Hr & Hn)]; (split; [done|]); exists r; (split; [done|]).
  - by destruct (generate_name r) as [k'|]; simplify_eq.
  - by rewrite Hn.
Qed.

Example duplicate_management_sample :
  duplicate_management (P := stable) sample_batch =
  Ok [ (0, contact (VStr "Ann") (VStr "Lee") (VStr "<ann_lee@x.com>")
                   (VStr ";Milling;Meat") (VTime 20240101));
       (4, contact (VStr "Bob") (VStr "Ray") VNull (VStr "Dairy") VNull) ].
Proof. vm_compute. reflexivity. Qed.

(** ** Batches on which neither the routine nor the objects matter *)

Lemma newer_or_equal_antisym a b :
  is_string a = false → is_string b = false →
  newer_or_equal a b = true → newer_or_equal b a = true → a = b.
Proof.
  destruct a, b; simpl; try done.
  intros _ _ H1%Z.leb_le H2%Z.leb_le. f_equal. lia.
Qed.

(** Two descending lists of the same rows are one list, when no two rows
    are as recent as one another. *)
Lemma sorted_unique (l1 l2 : list (nat * row)) :
  l1 ≡ₚ l2 → StronglySorted listed_before l1 → StronglySorted listed_before l2 →
  (∀ x y, x ∈ l1 → y ∈ l1 → listed_before x y → listed_before y x → x = y) →
  l1 = l2.
Proof.
  revert l2. induction l1 as [|x l1 IH]; intros l2 Hperm Hs1 Hs2 Hanti.
  - by apply Permutation_nil_l in Hperm.
  - destruct l2 as [|y l2]; [by apply Permutation_nil_r in Hperm|].
    apply StronglySorted_inv in Hs1 as [Hs1 Hx], Hs2 as [Hs2 Hy].
    rewrite Forall_forall in Hx, Hy.
    assert (x = y) as ->.
    { destruct (decide (x = y)) as [|Hne]; [done|].
      assert (x ∈ l2) as Hx2.
      { assert (x ∈ y :: l2) as [?|?]%elem_of_cons by (rewrite <- Hperm; left); done. }
      assert (y ∈ l1) as Hy1.
      { assert (y ∈ x :: l1) as [?|?]%elem_of_cons by (rewrite Hperm; left); done. }
      apply Hanti; [left|by right|by apply Hx|by apply Hy]. }
    f_equal. apply IH; [by apply Permutation_cons_inv in Hperm|done..|].
    intros a b Ha Hb. apply Hanti; by right.
Qed.

Lemma iterrows_distinct {P : Pandas} rows :
  distinct_instants rows = true → iterrows rows = iterrows (P := stable) rows.
Proof.
  intros [Hread Hnd%bool_decide_eq_true]%andb_true_iff. unfold iterrows.
  apply sorted_unique; [|apply sort_values_sorted..|].
  { by rewrite !sort_values_perm. }
  intros [i r] [j m]. rewrite !sort_values_perm, !elem_of_lookup_imap.
  intros (? & ? & [= <- <-] & Hi) (? & ? & [= <- <-] & Hj) Hij Hji.
  assert (∀ n x, rows !! n = Some x → is_string (created (n, x)) = false) as Hstr.
  { intros n x Hx. pose proof (forallb_lookup _ _ _ _ Hread Hx) as Hc.
    unfold created. simpl in *. by destruct (x !! "createdAt") as [[]|]. }
  pose proof (newer_or_equal_antisym _ _ (Hstr _ _ Hi) (Hstr _ _ Hj) Hij Hji) as Heq.
  assert (i = j) as ->; [|congruence].
  apply (proj1 (NoDup_alt _) Hnd i j (created (i, r)));
    rewrite list_lookup_fmap; [by rewrite Hi|by rewrite Hj, Heq].
Qed.

Lemma merge_pass_known {P Q : Pandas} cols rows st :
  Forall (fun ir => ir.2 !! "industry" ≠ Some VNull) rows →
  merge_pass (P := P) cols rows st = merge_pass (P := Q) cols rows st.
Proof.
  revert st. induction rows as [|[j r] rows IH]; intros st; [done|].
  intros [Hr Hrows]%Forall_cons. simpl in Hr.
  change (merge_pass (P := P) cols ((j, r) :: rows) st)
    with (merge_step (P := P) cols st (j, r) ≫= merge_pass (P := P) cols rows).
  change (merge_pass (P := Q) cols ((j, r) :: rows) st)
    with (merge_step (P := Q) cols st (j, r) ≫= merge_pass (P := Q) cols rows).
  assert (merge_step (P := P) cols st (j, r) = merge_step (P := Q) cols st (j, r)) as ->.
  { destruct st as [frame fr]. unfold merge_step, getitem.
    destruct (generate_name r) as [name|]; simpl; [|done].
    destruct (String.eqb name ""); [done|].
    destruct (entries fr !! name) as [[i inds]|]; [|done].
    destruct (r !! "industry") as [v|]; simpl; [|done].
    by rewrite !contains_known by congruence. }
  destruct (merge_step cols st (j, r)); simpl; [by apply IH|done].
Qed.

(** With instants that differ and industries that are known, the result
    is the one of the routine of the examples. *)
Lemma duplicate_management_stable {P : Pandas} df :
  distinct_instants (data df) = true → industries_known (data df) = true →
  duplicate_management df = duplicate_management (P := stable) df.
Proof.
  intros Hdist Hknown. unfold duplicate_management.
  destruct (convert_createdAt df) as [rows|] eqn:Hc; simpl; [|done].
  apply convert_createdAt_inv in Hc as (_ & -> & _).
  rewrite iterrows_distinct by done.
  rewrite (merge_pass_known (P := P) (Q := stable)); [done|].
  apply Forall_forall. intros [i r] Hin%elem_of_iterrows. simpl.
  pose proof (forallb_lookup _ _ _ _ Hknown Hin) as Hr. simpl in Hr.
  by destruct (r !! "industry") as [[]|].
Qed.

(* ===================================================================== *)
(** * The result of the merge *)

(** The pass does not read a row whose identity is the empty string. *)
Lemma merge_pass_drops_empty {P : Pandas} cols rows st :
  merge_pass cols rows st
  = merge_pass cols (filter (fun ir => ¬ key_is "" ir) rows) st.
Proof.
  revert st. induction rows as [|[i r] rows IH]; intros st; [done|].
  rewrite filter_cons. destruct (decide (¬ key_is "" (i, r))) as [Hk|Hk].
  - simpl. destruct (merge_step cols st (i, r)); simpl; [apply IH|done].
  - apply dec_stable in Hk. unfold key_is in Hk. simpl in Hk.
    rewrite <- IH. simpl. unfold merge_step. destruct st as [frame fr].
    by rewrite Hk.
Qed.

(** The record of an identity of the batch in a result. *)
Lemma identity_record {P : Pandas} df out k :
  duplicate_management df = Ok out → k ∈ identity_keys df →
  ∃ i rep olders,
    group k (iterrows (data df)) = (i, rep) :: olders
    ∧ joinable (history rep olders.*2) = true
    ∧ (i, finalize (history rep olders.*2)
                   (merged_row (columns df) rep olders.*2)) ∈ out.
Proof.
  intros Hrun [Hne Hk]%elem_of_identity_keys.
  destruct (duplicate_management_inv df out Hrun)
    as (_ & _ & _ & Hjoin & ks & _ & Hks & Hout).
  assert (k ∈ ks) as [n Hn]%list_elem_of_lookup.
  { apply Hks. split; [done|]. by apply group_nonempty. }
  destruct (Forall2_lookup_l _ _ _ _ _ Hout Hn) as ([i r] & Ho & Hcan).
  apply canonical_Some in Hcan as (rep & olders & Hg & Hr). simpl in *.
  exists i, rep, olders. split; [done|]. split; [by eapply Hjoin|].
  rewrite <- Hr. by eapply list_elem_of_lookup_2.
Qed.

(** The records of a result and their identities. *)
Lemma result_records {P : Pandas} df out :
  duplicate_management df = Ok out →
  ∀ o, o ∈ out →
    ∃ k rep olders,
      k ≠ ""
      ∧ group k (iterrows (data df)) = (o.1, rep) :: olders
      ∧ o.2 = finalize (history rep olders.*2)
                       (merged_row (columns df) rep olders.*2).
Proof.
  intros Hrun o [n Hn]%list_elem_of_lookup.
  destruct (duplicate_management_inv df out Hrun)
    as (_ & _ & _ & _ & ks & _ & Hks & Hout).
  destruct (Forall2_lookup_r _ _ _ _ _ Hout Hn) as (k & Hk & Hc).
  exists k. apply canonical_Some in Hc as (rep & olders & Hg & Hr).
  exists rep, olders. split; [|done].
  by apply list_elem_of_lookup_2, (proj1 (Hks k)) in Hk as [? _].
Qed.

(** The rows of an identity of a result have their industry cell. *)
Lemma group_industry_cell {P : Pandas} df out k j m :
  duplicate_management df = Ok out → k ≠ "" →
  (j, m) ∈ group k (iterrows (data df)) →
  m !! "industry" = Some (industry_of m).
Proof.
  intros Hrun Hne [Hk Hin%elem_of_iterrows]%elem_of_group.
  destruct (duplicate_management_inv df out Hrun) as (_ & _ & Hrows & _).
  destruct (Hrows j m Hin) as (name & Hname & Hcell).
  unfold key_is in Hk. simpl in Hk. rewrite Hname in Hk. injection Hk as ->.
  destruct (Hcell Hne) as [v Hv]. unfold industry_of. by rewrite Hv.
Qed.

(** ** Industries that are no strings *)

Lemma two_members {A} (l : list A) x y :
  x ∈ l → y ∈ l → x ≠ y → (1 <? length l) = true.
Proof.
  destruct l as [|a [|b l]]; simpl; [|intros ->%list_elem_of_singleton
    ->%list_elem_of_singleton|]; try done.
  intros Hx. by apply elem_of_nil in Hx.
Qed.

Lemma forallb_member {A} (f : A → bool) (l : list A) x :
  x ∈ l → f x = false → forallb f l = false.
Proof.
  induction l as [|y l IH]; [intros Hx; by apply elem_of_nil in Hx|].
  intros [->|Hx]%elem_of_cons Hf; simpl; [by rewrite Hf|].
  rewrite (IH Hx Hf). apply andb_false_r.
Qed.

Lemma existsb_member {A} (f : A → bool) (l : list A) x :
  x ∈ l → f x = true → existsb f l = true.
Proof.
  induction l as [|y l IH]; [intros Hx; by apply elem_of_nil in Hx|].
  intros [->|Hx]%elem_of_cons Hf; simpl; [by rewrite Hf|].
  rewrite (IH Hx Hf). apply orb_true_r.
Qed.

Lemma collected_member {P : Pandas} rep olders i ir :
  ir ∈ (i, rep) :: olders → industry_of ir.2 ∈ collected rep olders.
Proof.
  intros [->|Hin]%elem_of_cons; apply elem_of_collected; [by left|right].
  apply list_elem_of_fmap. exists ir.2. split; [done|].
  by apply list_elem_of_fmap_2.
Qed.

(** Two industries of one identity, one of them no string: both are kept
    and the join raises. *)
Lemma mixed_raises {P : Pandas} df i j ri rj k :
  forallb record_parses (data df) = true →
  data df !! i = Some ri → data df !! j = Some rj →
  generate_name ri = Ok k → generate_name rj = Ok k → k ≠ "" →
  is_string (industry_of ri) = false → industry_of rj ≠ industry_of ri →
  duplicate_management df = Raise TypeError.
Proof.
  intros Hall Hi Hj Hki Hkj Hne Hstr Hdiff. set (rows := iterrows (data df)).
  assert (∀ r, r ∈ data df → readable r = true) as Hread.
  { intros r [n Hn]%list_elem_of_lookup.
    pose proof (forallb_lookup _ _ _ _ Hall Hn) as Hok. unfold record_parses in Hok.
    by apply andb_true_iff in Hok as [[? _]%andb_true_iff _]. }
  assert ("createdAt" ∈ columns df) as Hcol.
  { apply (shape_cell df i ri "createdAt" Hi).
    assert (readable ri = true) as Hr by (by eapply Hread, list_elem_of_lookup_2).
    unfold readable in Hr. by destruct (ri !! "createdAt"). }
  assert (Forall (row_ok (data df)) rows) as Hrows.
  { apply Forall_forall. intros [n r] Hin%elem_of_iterrows.
    pose proof (forallb_lookup _ _ _ _ Hall Hin) as Hok. unfold record_parses in Hok.
    apply andb_true_iff in Hok as [[_ Hname]%andb_true_iff Hind].
    split; [done|]. simpl. destruct (generate_name r) as [name|]; [|done].
    exists name. split; [done|]. intros _. by destruct (r !! "industry"). }
  destruct (merge_pass_ok (columns df) (data df) rows [] (data df, no_records))
    as ([frame fr] & Hpass & Hinv);
    [apply invariant_start|apply NoDup_iterrows|done|].
  simpl in Hinv.
  assert ((i, ri) ∈ group k rows) as Hgi.
  { apply elem_of_group. split; [done|]. by apply elem_of_iterrows. }
  assert ((j, rj) ∈ group k rows) as Hgj.
  { apply elem_of_group. split; [done|]. by apply elem_of_iterrows. }
  assert (k ∈ keys fr) as [n Hn]%list_elem_of_lookup.
  { apply (inv_keys _ _ _ _ Hinv k), (inv_dom _ _ _ _ Hinv k). split; [done|].
    intros Hnil. simpl in Hnil. rewrite Hnil in Hgi. by apply elem_of_nil in Hgi. }
  assert (Forall2 (fun k v => entries fr !! k = Some v) (keys fr) (values fr)) as Hvals.
  { apply values_lookup. intros k' Hk'. by apply (inv_keys _ _ _ _ Hinv k'). }
  destruct (Forall2_lookup_l _ _ _ _ _ Hvals Hn) as ([idx inds] & Hv & He).
  apply list_elem_of_lookup_2 in Hv.
  destruct (inv_entry _ _ _ _ Hinv _ _ _ He) as (rep & olders & Hg & -> & _).
  simpl in Hg. rewrite Hg in Hgi, Hgj.
  unfold duplicate_management.
  rewrite convert_createdAt_readable; simpl; [|done|].
  2: { apply forallb_forall. intros r Hr%list_elem_of_In. by apply Hread. }
  fold rows. rewrite Hpass. simpl.
  rewrite concat_industries_unjoinable; [done|].
  apply (existsb_member _ _ (idx, collected rep olders)); [done|].
  unfold unjoinable. simpl. apply andb_true_iff. split.
  - apply (two_members _ (industry_of rj) (industry_of ri)); [| |done].
    + apply (collected_member rep olders idx (j, rj) Hgj).
    + apply (collected_member rep olders idx (i, ri) Hgi).
  - apply negb_true_iff. apply (forallb_member _ _ (industry_of ri)); [|done].
    apply (collected_member rep olders idx (i, ri) Hgi).
Qed.

(* ===================================================================== *)
(** * What the specification states of the merge *)

(** C1 does not hold as the specification states it, for every input: in
    [mixed_batch] the identity "Ann Lee" is present, and the call raises
    at the join of her industries, whatever the sorting routine; no record
    is returned for her. *)
Lemma mixed_industries_no_record :
  "Ann Lee" ∈ identity_keys mixed_batch
  ∧ ∀ P : Pandas, duplicate_management (P := P) mixed_batch = Raise TypeError.
Proof.
  split; [apply (bool_decide_unpack _); by vm_compute|].
  intros P.
  by apply (mixed_raises mixed_batch 1 0
              (contact (VStr "Ann") (VStr "Lee") (VStr "<ann_lee@x.com>") VNull
                       (VTime 20230601))
              (contact (VStr "Ann") (VStr "Lee") VNull (VStr "Meat") (VTime 20240101))
              "Ann Lee").
Qed.

(** C1 (amended). [duplicate_management] returns on every batch that has
    its column of instants and whose records have a readable or missing
    instant, an identity that resolves and a string for industry.
    Whenever it returns, on such a batch or another, the records of the
    result stand one to one against the distinct non-empty identity keys
    of the batch: the record for a key carries the label of an input
    record of that identity and is computed from the records of that
    identity alone.  No record whose identity is the empty string has its
    label in the result, and the pass over the batch is the pass over its
    records of non-empty identity. *)
Theorem one_record_per_identity {P : Pandas} (df : DataFrame) :
  (well_formed df = true → ∃ out, duplicate_management df = Ok out)
  ∧ ∀ out, duplicate_management df = Ok out →
      ∃ ks,
        ks ≡ₚ identity_keys df
        ∧ length out = length (identity_keys df)
        ∧ Forall2 (fun k o =>
                     canonical (columns df) (iterrows (data df)) k = Some o
                     ∧ ∃ r, data df !! o.1 = Some r ∧ generate_name r = Ok k)
                  ks out
        ∧ (∀ i r, data df !! i = Some r → generate_name r = Ok "" → i ∉ out.*1)
        ∧ merge_pass (columns df) (iterrows (data df)) (data df, no_records)
          = merge_pass (columns df)
              (filter (fun ir => ¬ key_is "" ir) (iterrows (data df)))
              (data df, no_records).
Proof.
  split; [apply duplicate_management_returns|]. intros out Hrun.
  destruct (duplicate_management_inv df out Hrun)
    as (_ & _ & _ & _ & ks & Hnd & Hks & Hout).
  assert (ks ≡ₚ identity_keys df) as Hperm.
  { apply NoDup_Permutation; [done|apply NoDup_remove_dups|].
    intros k. rewrite Hks, elem_of_identity_keys. by rewrite group_nonempty. }
  assert (Forall2 (fun k o =>
                     canonical (columns df) (iterrows (data df)) k = Some o
                     ∧ ∃ r, data df !! o.1 = Some r ∧ generate_name r = Ok k)
                  ks out) as Hout'.
  { eapply Forall2_impl; [exact Hout|]. intros k o Hc. split; [done|].
    apply canonical_Some in Hc as (rep & olders & Hg & _).
    apply group_head_rows in Hg. eauto. }
  exists ks. repeat split; try done; [| |apply merge_pass_drops_empty].
  - apply Forall2_length in Hout. by rewrite <- Hout, Hperm.
  - intros i r Hi Hname ([i' r'] & -> & [n Hn]%list_elem_of_lookup)%list_elem_of_fmap.
    destruct (Forall2_lookup_r _ _ _ _ _ Hout' Hn) as (k & Hk & _ & r0 & Hr0 & Hname0).
    simpl in *. assert (k ∈ ks) as Hin by by eapply list_elem_of_lookup_2.
    apply Hks in Hin as [Hne _]. congruence.
Qed.

Lemma one_record_per_identity_witness :
  ∃ ks,
    ks ≡ₚ identity_keys sample_batch
    ∧ length [ (0, contact (VStr "Ann") (VStr "Lee") (VStr "<ann_lee@x.com>")
                           (VStr ";Milling;Meat") (VTime 20240101));
               (4, contact (VStr "Bob") (VStr "Ray") VNull (VStr "Dairy") VNull) ]
      = length (identity_keys sample_batch)
    ∧ Forall2 (fun k o =>
                 canonical (columns sample_batch)
                           (iterrows (P := stable) (data sample_batch)) k = Some o
                 ∧ ∃ r, data sample_batch !! o.1 = Some r ∧ generate_name r = Ok k)
              ks
              [ (0, contact (VStr "Ann") (VStr "Lee") (VStr "<ann_lee@x.com>")
                            (VStr ";Milling;Meat") (VTime 20240101));
                (4, contact (VStr "Bob") (VStr "Ray") VNull (VStr "Dairy") VNull) ]
    ∧ (∀ i r, data sample_batch !! i = Some r → generate_name r = Ok "" →
              i ∉ [ (0, contact (VStr "Ann") (VStr "Lee") (VStr "<ann_lee@x.com>")
                                (VStr ";Milling;Meat") (VTime 20240101));
                    (4, contact (VStr "Bob") (VStr "Ray") VNull (VStr "Dairy") VNull) ].*1)
    ∧ merge_pass (P := stable) (columns sample_batch)
        (iterrows (P := stable) (data sample_batch)) (data sample_batch, no_records)
      = merge_pass (P := stable) (columns sample_batch)
          (filter (fun ir => ¬ key_is "" ir) (iterrows (P := stable) (data sample_batch)))
          (data sample_batch, no_records).
Proof.
  apply (proj2 (one_record_per_identity (P := stable) sample_batch)).
  vm_compute. reflexivity.
Defined.




Lemma history_nonempty rep olders : history rep olders ≠ [].
Proof.
  unfold history. rewrite accumulate_spec. intros H%remove_dups_nil.
  by apply (f_equal length) in H; rewrite length_reverse in H.
Qed.

Lemma history_last rep olders : last (history rep olders) = Some (industry_of rep).
Proof.
  unfold history. rewrite accumulate_spec, last_remove_dups, reverse_cons.
  apply last_snoc.
Qed.

Lemma canonical_industry cols rep olders :
  is_Some (rep !! "industry") →
  finalize (history rep olders) (merged_row cols rep olders) !! "industry"
  = Some (industry_cell (history rep olders)).
Proof.
  intros [v Hv]. rewrite finalize_industry, merged_row_industry.
  pose proof (history_nonempty rep olders) as Hne.
  pose proof (history_last rep olders) as Hlast.
  destruct (history rep olders) as [|x [|y l]]; [done| |done].
  simpl in *. injection Hlast as ->. unfold industry_of. by rewrite Hv.
Qed.

Lemma split_no_sep sep x :
  Py.has_char sep x = false → Py.split sep x = [x].
Proof.
  induction x as [|c x IH]; [done|].
  intros [Hc Hx]%has_char_cons. simpl. by rewrite Hc, (IH Hx).
Qed.

Lemma split_app_sep sep x rest :
  Py.has_char sep x = false →
  Py.split sep (x +:+ String sep rest) = x :: Py.split sep rest.
Proof.
  induction x as [|c x IH].
  - intros _. rewrite app_empty. simpl. by rewrite Ascii.eqb_refl.
  - intros [Hc Hx]%has_char_cons. rewrite app_cons. simpl. by rewrite Hc, (IH Hx).
Qed.

Lemma split_join sep l :
  l ≠ [] → Forall (fun x => Py.has_char sep x = false) l →
  Py.split sep (Py.join (String sep "") l) = l.
Proof.
  induction l as [|x l IH]; [done|]. intros _ [Hx Hl]%Forall_cons.
  destruct l as [|y l]; [by apply split_no_sep|].
  change (Py.join (String sep "") (x :: y :: l))
    with (x +:+ String sep (Py.join (String sep "") (y :: l))).
  rewrite split_app_sep by done. f_equal. by apply IH.
Qed.

(** An industry cell lists the values it was written from, when none of
    them holds a ";". *)
Lemma listed_values_cell hist :
  hist ≠ [] →
  Forall (fun v => Py.has_char ";" (text v) = false) hist →
  listed_values (text (industry_cell hist)) = text <$> hist.
Proof.
  intros Hne Hall. unfold listed_values.
  destruct hist as [|x [|y l]]; [done| |].
  - apply Forall_cons in Hall as [Hx _]. simpl.
    rewrite split_no_sep by done. destruct (text x) as [|c [|]]; done.
  - assert (Py.split ";" (text (industry_cell (x :: y :: l)))
            = "" :: (text <$> x :: y :: l)) as Hs.
    { change (text (industry_cell (x :: y :: l)))
        with ("" +:+ String ";" (Py.join ";" (text <$> x :: y :: l))).
      rewrite split_app_sep by done. f_equal. apply split_join; [done|].
      by apply Forall_fmap. }
    rewrite Hs. reflexivity.
Qed.

(** C3 does not hold as the specification states it: the values of a
    serialised history are read between its ";", and an industry may hold
    one.  In [semicolon_batch] the industries of Ann Lee are "Meat" and
    "Meat;Milling"; her cell lists "Meat" twice and "Milling", which is
    the industry of no record. *)
Lemma semicolon_in_industry :
  (∀ P : Pandas,
     duplicate_management (P := P) semicolon_batch
     = Ok [ (0, contact (VStr "Ann") (VStr "Lee") VNull
                        (VStr ";Meat;Milling;Meat") (VTime 20240101)) ])
  ∧ listed_values ";Meat;Milling;Meat" = ["Meat"; "Milling"; "Meat"].
Proof.
  split; [|done]. intros P.
  rewrite duplicate_management_stable by done. by vm_compute.
Qed.

(** C3 (amended). Whenever [duplicate_management] returns, every identity
    of the batch has its record in the result, and the industry cell of
    that record is written from a list without repeats whose members are
    exactly the industries of the input records of that identity; a list
    of more than one value holds strings only.  When none of the values
    holds a ";", the values that the cell lists between its ";" are that
    list: none is lost and none comes twice. *)
Theorem industry_history_is_the_set {P : Pandas} (df : DataFrame)
    (out : list (nat * row)) (k : string) :
  duplicate_management df = Ok out → k ∈ identity_keys df →
  ∃ i r hist,
    (i, r) ∈ out
    ∧ head (group k (iterrows (data df))).*1 = Some i
    ∧ NoDup hist
    ∧ (∀ v, v ∈ hist ↔
            ∃ j m, data df !! j = Some m ∧ generate_name m = Ok k
                   ∧ m !! "industry" = Some v)
    ∧ (1 < length hist → Forall (fun v => is_string v = true) hist)
    ∧ r !! "industry" = Some (industry_cell hist)
    ∧ (Forall (fun v => Py.has_char ";" (text v) = false) hist →
       listed_values (text (industry_cell hist)) = text <$> hist).
Proof.
  intros Hrun Hk. pose proof Hk as [Hne _]%elem_of_identity_keys.
  destruct (identity_record df out k Hrun Hk) as (i & rep & olders & Hg & Hjoin & Hin).
  assert (∀ j m, (j, m) ∈ (i, rep) :: olders → m !! "industry" = Some (industry_of m))
    as Hcell.
  { intros j m Hm. rewrite <- Hg in Hm. by eapply group_industry_cell. }
  assert (∀ v, v ∈ history rep olders.*2 →
               ∃ j m, (j, m) ∈ (i, rep) :: olders ∧ v = industry_of m) as Hfrom.
  { intros v [->|(m & -> & ([j m'] & -> & Hm)%list_elem_of_fmap)%list_elem_of_fmap]%elem_of_history.
    - exists i, rep. split; [left|done].
    - exists j, m'. split; [by right|done]. }
  eexists i, _, (history rep olders.*2). split; [exact Hin|].
  split; [by rewrite Hg|]. split; [|split; [|split; [|split]]].
  - unfold history. rewrite accumulate_spec. apply NoDup_remove_dups.
  - intros v. split.
    + intros Hv. destruct (Hfrom v Hv) as (j & m & Hm & ->).
      exists j, m. rewrite (Hcell j m Hm). rewrite <- Hg in Hm.
      apply elem_of_group in Hm as [Hkey Hm]. by apply elem_of_iterrows in Hm.
    + intros (j & m & Hj & Hkey & Hv). apply elem_of_history.
      assert ((j, m) ∈ (i, rep) :: olders) as Hm.
      { rewrite <- Hg. apply elem_of_group. split; [done|]. by apply elem_of_iterrows. }
      pose proof (Hcell j m Hm) as Hv'. rewrite Hv in Hv'. injection Hv' as ->.
      apply elem_of_cons in Hm as [[= -> ->]|Hm]; [by left|right].
      apply list_elem_of_fmap. exists m. split; [done|].
      by apply (list_elem_of_fmap_2 snd) in Hm.
  - intros Hlen%Nat.ltb_lt. unfold joinable in Hjoin. rewrite Hlen in Hjoin.
    simpl in Hjoin. apply Forall_forall. intros v Hv%list_elem_of_In.
    by eapply forallb_forall in Hjoin.
  - apply canonical_industry. rewrite (Hcell i rep); [done|left].
  - intros Hsemi. by apply listed_values_cell; [apply history_nonempty|].
Qed.

Lemma industry_history_is_the_set_witness :
  ∃ i r hist,
    (i, r) ∈ [ (0, contact (VStr "Ann") (VStr "Lee") (VStr "<ann_lee@x.com>")
                           (VStr ";Milling;Meat") (VTime 20240101));
               (4, contact (VStr "Bob") (VStr "Ray") VNull (VStr "Dairy") VNull) ]
    ∧ head (group "Ann Lee" (iterrows (P := stable) (data sample_batch))).*1 = Some i
    ∧ NoDup hist
    ∧ (∀ v, v ∈ hist ↔
            ∃ j m, data sample_batch !! j = Some m ∧ generate_name m = Ok "Ann Lee"
                   ∧ m !! "industry" = Some v)
    ∧ (1 < length hist → Forall (fun v => is_string v = true) hist)
    ∧ r !! "industry" = Some (industry_cell hist)
    ∧ (Forall (fun v => Py.has_char ";" (text v) = false) hist →
       listed_values (text (industry_cell hist)) = text <$> hist).
Proof.
  apply (industry_history_is_the_set (P := stable) sample_batch).
  - vm_compute. reflexivity.
  - apply (bool_decide_unpack _). vm_compute. exact I.
Defined.

(** C4 does not hold as the specification states it: the oldest industry
    does not come first when a newer record has it too.  In [ann_lee] the
    oldest record reads "Meat", as the newest does; the cell reads
    ";Milling;Meat", whatever the sorting routine. *)
Lemma oldest_industry_not_first :
  (∀ P : Pandas,
     duplicate_management (P := P) ann_lee
     = Ok [ (0, contact (VStr "Ann") (VStr "Lee") VNull
                        (VStr ";Milling;Meat") (VTime 20240101)) ])
  ∧ data ann_lee !! 2 ≫= (.!! "industry") = Some (VStr "Meat")
  ∧ data ann_lee !! 2 ≫= (.!! "createdAt") = Some (VTime 20220101).
Proof.
  split; [|done]. intros P.
  rewrite duplicate_management_stable by done. by vm_compute.
Qed.

(** C4 (amended). Whenever [duplicate_management] returns, every identity
    of the batch has its record in the result, under the label of its
    representative.  Let the records of the identity be listed newest
    first, as the pass reads them.  The history is their industries read
    from the oldest record to the newest, each value kept at its most
    recent place only: the values stand in the order of their most recent
    records, the value last seen longest ago first (this is the industry
    of the oldest record when no newer record of the identity has it) and
    the representative's own value last.  With more than one value, all of
    them strings, the industry cell is a ";" followed by the values joined
    with ";"; with one value it is that value as it is. *)
Theorem industry_history_order {P : Pandas} (df : DataFrame)
    (out : list (nat * row)) (k : string) :
  duplicate_management df = Ok out → k ∈ identity_keys df →
  ∃ i rep olders r hist,
    group k (iterrows (data df)) = (i, rep) :: olders
    ∧ StronglySorted listed_before ((i, rep) :: olders)
    ∧ (i, r) ∈ out
    ∧ hist = remove_dups (reverse (industry_of <$> rep :: olders.*2))
    ∧ last hist = Some (industry_of rep)
    ∧ (1 < length hist →
       Forall (fun v => is_string v = true) hist
       ∧ r !! "industry" = Some (VStr (";" +:+ Py.join ";" (text <$> hist))))
    ∧ (∀ v, hist = [v] → r !! "industry" = Some v)
    ∧ (∀ newer oldest,
         (i, rep) :: olders = newer ++ [oldest] →
         industry_of oldest.2 ∉ industry_of <$> newer.*2 →
         head hist = Some (industry_of oldest.2)).
Proof.
  intros Hrun Hk. pose proof Hk as [Hne _]%elem_of_identity_keys.
  destruct (identity_record df out k Hrun Hk) as (i & rep & olders & Hg & Hjoin & Hin).
  eexists i, rep, olders, _, (history rep olders.*2).
  split; [done|]. split; [rewrite <- Hg; apply group_sorted|].
  split; [exact Hin|].
  split; [apply accumulate_spec|]. split; [apply history_last|].
  assert (is_Some (rep !! "industry")) as Hcell.
  { rewrite (group_industry_cell df out k i rep Hrun Hne); [done|].
    rewrite Hg. left. }
  pose proof (canonical_industry (columns df) rep olders.*2 Hcell) as Hind.
  split; [|split].
  - intros Hlen. split.
    + apply Nat.ltb_lt in Hlen. unfold joinable in Hjoin. rewrite Hlen in Hjoin.
      simpl in Hjoin. apply Forall_forall. intros v Hv%list_elem_of_In.
      by eapply forallb_forall in Hjoin.
    + rewrite Hind.
      by destruct (history rep olders.*2) as [|x [|y l]]; simpl in *; try lia.
  - intros v Hv. by rewrite Hind, Hv.
  - intros newer oldest Hsplit Hfresh.
    unfold history. rewrite accumulate_spec.
    change (industry_of rep :: (industry_of <$> olders.*2))
      with (industry_of <$> ((i, rep) :: olders).*2).
    rewrite Hsplit, !fmap_app.
    change (industry_of <$> [oldest].*2) with [industry_of oldest.2].
    rewrite reverse_snoc. simpl remove_dups.
    rewrite <- elem_of_reverse in Hfresh.
    by destruct (decide_rel elem_of _ _).
Qed.

Lemma industry_history_order_witness :
  ∃ i rep olders r hist,
    group "Ann Lee" (iterrows (P := stable) (data sample_batch)) = (i, rep) :: olders
    ∧ StronglySorted listed_before ((i, rep) :: olders)
    ∧ (i, r) ∈ [ (0, contact (VStr "Ann") (VStr "Lee") (VStr "<ann_lee@x.com>")
                             (VStr ";Milling;Meat") (VTime 20240101));
                 (4, contact (VStr "Bob") (VStr "Ray") VNull (VStr "Dairy") VNull) ]
    ∧ hist = remove_dups (reverse (industry_of <$> rep :: olders.*2))
    ∧ last hist = Some (industry_of rep)
    ∧ (1 < length hist →
       Forall (fun v => is_string v = true) hist
       ∧ r !! "industry" = Some (VStr (";" +:+ Py.join ";" (text <$> hist))))
    ∧ (∀ v, hist = [v] → r !! "industry" = Some v)
    ∧ (∀ newer oldest,
         (i, rep) :: olders = newer ++ [oldest] →
         industry_of oldest.2 ∉ industry_of <$> newer.*2 →
         head hist = Some (industry_of oldest.2)).
Proof.
  apply (industry_history_order (P := stable) sample_batch).
  - vm_compute. reflexivity.
  - apply (bool_decide_unpack _). vm_compute. exact I.
Defined.

Example serialize_three :
  serialize [VStr "X"; VStr "Y"; VStr "Z"] = VStr ";X;Y;Z".
Proof. reflexivity. Qed.

Example listed_values_three : listed_values ";X;Y;Z" = ["X"; "Y"; "Z"].
Proof. reflexivity. Qed.

Example listed_values_bare : listed_values "Meat" = ["Meat"].
Proof. reflexivity. Qed.

(** C5 does not hold as the specification states it: one unreadable date
    and the call raises, whatever the sorting routine; the other records
    of the batch are not merged. *)
Lemma unreadable_date_aborts_batch :
  (∀ P : Pandas, duplicate_management (P := P) unreadable_batch = Raise ValueError)
  ∧ (∀ P : Pandas, ¬ ∃ out, duplicate_management (P := P) unreadable_batch = Ok out).
Proof. split; [done|]. by intros P [out H]. Qed.

(** C5 (amended). When some record of the batch has a [createdAt] that
    cannot be read as a date, [duplicate_management] raises [ValueError]
    at the conversion of the column: no record is rejected on its own and
    no record of the batch is merged or returned. *)
Theorem unreadable_date_raises {P : Pandas} (df : DataFrame) :
  forallb has_createdAt (data df) = true →
  existsb unreadable (data df) = true →
  duplicate_management df = Raise ValueError.
Proof.
  intros Hall Hex. unfold duplicate_management, convert_createdAt.
  rewrite bool_decide_eq_true_2.
  - by rewrite (to_datetime_column_raises _ Hall Hex).
  - apply existsb_exists in Hex as (r & [i Hi]%list_elem_of_In%list_elem_of_lookup & Hr).
    apply (shape_cell df i r "createdAt" Hi).
    unfold unreadable in Hr. by destruct (r !! "createdAt").
Qed.

Lemma unreadable_date_raises_witness :
  duplicate_management (P := stable) unreadable_batch = Raise ValueError.
Proof. apply (unreadable_date_raises unreadable_batch); reflexivity. Defined.

(* ===================================================================== *)
(** * Further properties of the components *)

(** ** Phone Normalizer *)

Lemma str_app_assoc a b c : (a +:+ b) +:+ c = a +:+ (b +:+ c).
Proof. induction a as [|x a IH]; [done|]. by rewrite !app_cons, IH. Qed.

Lemma take_drop_str n s : Py.take n s +:+ Py.drop n s = s.
Proof.
  revert s. induction n as [|n IH]; intros [|c s]; try done.
  simpl. by rewrite app_cons, IH.
Qed.

Lemma digits_of_app a b : digits_of (a +:+ b) = digits_of a +:+ digits_of b.
Proof.
  unfold digits_of. induction a as [|c a IH]; [done|].
  rewrite app_cons. simpl. rewrite IH.
  destruct (Py.not_digit c); [by rewrite !app_empty|by rewrite app_cons].
Qed.

Lemma digits_of_digits s : Py.all_chars Py.is_digit (digits_of s) = true.
Proof.
  unfold digits_of. induction s as [|c s IH]; [done|]. simpl.
  unfold Py.not_digit. destruct (Py.is_digit c) eqn:Hc; simpl; [by rewrite Hc|done].
Qed.

Lemma digits_of_id d : Py.all_chars Py.is_digit d = true → digits_of d = d.
Proof.
  unfold digits_of. induction d as [|c d IH]; [done|]. simpl.
  intros [Hc Hd]%andb_true_iff. unfold Py.not_digit. rewrite Hc. simpl.
  f_equal. by apply IH.
Qed.

Lemma all_chars_lstrip p c s :
  Py.all_chars p s = true → Py.all_chars p (Py.lstrip c s) = true.
Proof.
  induction s as [|d s IH]; [done|]. simpl.
  intros [Hd Hs]%andb_true_iff.
  destruct (Ascii.eqb d c); [by apply IH|]. simpl. by rewrite Hd, Hs.
Qed.

Lemma lstrip_idemp c s : Py.lstrip c (Py.lstrip c s) = Py.lstrip c s.
Proof.
  induction s as [|d s IH]; [done|]. simpl.
  destruct (Ascii.eqb d c) eqn:Hd; [done|]. simpl. by rewrite Hd.
Qed.

Lemma phone_digits_are_digits raw : Py.all_chars Py.is_digit (phone_digits raw) = true.
Proof. apply all_chars_lstrip, digits_of_digits. Qed.

Lemma codes_lookup_other c :
  c ≠ "Great Britain" → c ≠ "Ireland" → codes !! c = None.
Proof.
  intros H1 H2. unfold codes. by rewrite !lookup_insert_ne, lookup_empty.
Qed.

(** The formatted phone: code by country, then the digits. *)
Lemma fix_phone_numbers_format raw country :
  fix_phone_numbers (Some raw) country
  = phone_format (dialing_code country) (phone_digits raw).
Proof.
  unfold fix_phone_numbers, phone_format, phone_digits, digits_of.
  f_equal. f_equal.
  destruct country as [c|]; [|done].
  destruct (decide (c = "England")) as [->|?]; [done|].
  destruct (decide (c = "Wales")) as [->|?]; [done|].
  destruct (decide (c = "Northern Ireland")) as [->|?]; [done|].
  destruct (decide (c = "Scotland")) as [->|?]; [done|].
  destruct (decide (c = "Great Britain")) as [->|?]; [done|].
  destruct (decide (c = "Ireland")) as [->|?]; [done|].
  unfold dialing_code, country_codes_database.
  rewrite !bool_decide_eq_false_2.
  - simpl. by rewrite codes_lookup_other.
  - congruence.
  - rewrite !elem_of_cons, elem_of_nil. by_cases.
  - rewrite !elem_of_cons, elem_of_nil. by_cases.
Qed.

Lemma digits_of_format code d :
  Py.all_chars Py.is_digit d = true →
  digits_of (phone_format code d) = digits_of code +:+ d.
Proof.
  intros Hd. unfold phone_format. rewrite !digits_of_app.
  change (digits_of "(") with "". change (digits_of ") ") with "".
  change (digits_of " ") with "". rewrite !app_empty.
  by rewrite <- digits_of_app, take_drop_str, (digits_of_id d Hd).
Qed.

Lemma phone_digits_zeros raw :
  Py.all_chars zero_or_no_digit raw = true → phone_digits raw = "".
Proof.
  unfold phone_digits, digits_of. induction raw as [|c raw IH]; [done|]. simpl.
  intros [Hc Hraw]%andb_true_iff. unfold zero_or_no_digit in Hc.
  destruct (Py.not_digit c); [by apply IH|].
  simpl in Hc. simpl. rewrite Hc. by apply IH.
Qed.

(** X1. The code that [fix_phone_numbers] prints is "+44" for "England",
    "Wales", "Northern Ireland", "Scotland" and "Great Britain", "+353" for
    "Ireland", and empty for every other country, a null one too; the
    names are compared with case.  The code stands in parentheses before
    the first four digits, a space and the other digits. *)
Theorem phone_code_by_country (raw : string) (country : option string) :
  fix_phone_numbers (Some raw) country
  = "(" +:+ dialing_code country +:+ ") " +:+ Py.take 4 (phone_digits raw)
        +:+ " " +:+ Py.drop 4 (phone_digits raw).
Proof. apply fix_phone_numbers_format. Qed.

(** X2. The digits of a formatted phone are the digits of the dialing
    code followed by the digits of the raw phone without its leading
    zeros, in their order: none is lost and none is added. *)
Theorem phone_keeps_digits (raw : string) (country : option string) :
  digits_of (fix_phone_numbers (Some raw) country)
  = digits_of (dialing_code country) +:+ Py.lstrip "0" (digits_of raw).
Proof.
  rewrite fix_phone_numbers_format.
  apply digits_of_format, phone_digits_are_digits.
Qed.

(** X3. Formatting a formatted phone again for the same country gives it
    back exactly when the country has no dialing code: with a code, the
    digits of the code enter the number. *)
Theorem phone_format_twice (raw : string) (country : option string) :
  fix_phone_numbers (Some (fix_phone_numbers (Some raw) country)) country
  = fix_phone_numbers (Some raw) country
  ↔ dialing_code country = "".
Proof.
  rewrite !fix_phone_numbers_format.
  set (d := phone_digits raw).
  assert (Py.all_chars Py.is_digit d = true) as Hd by apply phone_digits_are_digits.
  assert (phone_digits (phone_format (dialing_code country) d)
          = Py.lstrip "0" (digits_of (dialing_code country) +:+ d)) as Hagain.
  { unfold phone_digits at 1. by rewrite digits_of_format. }
  rewrite Hagain. split.
  - intros Heq. apply (f_equal digits_of) in Heq.
    rewrite !digits_of_format in Heq by (done || by apply all_chars_lstrip;
      rewrite <- (digits_of_id d Hd), <- digits_of_app; apply digits_of_digits).
    apply (f_equal String.length) in Heq. rewrite !length_app in Heq.
    unfold dialing_code in *. repeat case_bool_decide; try done;
      simpl in Heq; rewrite ?length_app in Heq; simpl in Heq; lia.
  - intros ->. change (digits_of "") with "". rewrite app_empty.
    unfold d, phone_digits. by rewrite lstrip_idemp.
Qed.

(** X4. A raw phone that holds no digit other than zeros is formatted to
    the code and an empty number. *)
Theorem phone_of_zeros (raw : string) (country : option string) :
  Py.all_chars zero_or_no_digit raw = true →
  fix_phone_numbers (Some raw) country = "(" +:+ dialing_code country +:+ ")  ".
Proof.
  intros Hraw. rewrite fix_phone_numbers_format, (phone_digits_zeros raw Hraw).
  unfold phone_format. simpl. done.
Qed.

Lemma phone_of_zeros_witness :
  fix_phone_numbers (Some "00 (0) n/a") (Some "Wales") = "(+44)  ".
Proof. apply (phone_of_zeros "00 (0) n/a" (Some "Wales")). reflexivity. Defined.

(** ** The matches of the two patterns, read backwards *)

Lemma star_k_inv {A} p s (k : string → option A) m :
  Re.star_k p s k = Some m →
  ∃ a b, s = a +:+ b ∧ Py.all_chars p a = true ∧ k b = Some m.
Proof.
  induction s as [|c s IH]; simpl.
  - intros Hk. by exists "", "".
  - destruct (p c) eqn:Hc.
    + destruct (Re.star_k p s k) as [m'|] eqn:Hs.
      * intros [= ->]. destruct (IH eq_refl) as (a & b & -> & Ha & Hk).
        exists (String c a), b. simpl. by rewrite Hc.
      * intros Hk. by exists "", (String c s).
    + intros Hk. by exists "", (String c s).
Qed.

Lemma search_inv r s gs :
  Re.search r s = Some gs →
  ∃ pre s', s = pre +:+ s' ∧ Re.match_here r s' = Some gs.
Proof.
  induction s as [|c s IH].
  - simpl. destruct (Re.match_here r "") eqn:Hm; [|done].
    intros [= ->]. by exists "", "".
  - rewrite search_cons. destruct (Re.match_here r (String c s)) eqn:Hm.
    + intros [= ->]. by exists "", (String c s).
    + intros (pre & s' & -> & Hs)%IH. by exists (String c pre), s'.
Qed.

Lemma has_char_app c a b :
  Py.has_char c (a +:+ b) = Py.has_char c a || Py.has_char c b.
Proof.
  induction a as [|d a IH]; [done|]. rewrite app_cons. simpl.
  by rewrite IH, orb_assoc.
Qed.

Lemma dot_no_line_feed s :
  Py.all_chars Py.dot s = true → Py.has_char LF s = false.
Proof.
  induction s as [|c s IH]; [done|]. simpl.
  intros [Hc Hs]%andb_true_iff. unfold Py.dot in Hc.
  apply negb_true_iff in Hc. apply orb_false_iff. split; [exact Hc|by apply IH].
Qed.

Lemma match_here_email_inv s gs :
  Re.match_here email_pattern s = Some gs →
  ∃ g post, s = "<" +:+ g +:+ ">" +:+ post
            ∧ gs = [g] ∧ Py.all_chars Py.dot g = true.
Proof.
  unfold Re.match_here, email_pattern. destruct s as [|c rest]; [done|]. simpl.
  destruct (Ascii.eqb_spec c "<") as [->|]; [|done].
  intros (g & b & -> & Hg & Hk)%star_k_inv.
  destruct b as [|d post]; [done|].
  destruct (Ascii.eqb_spec d ">") as [->|]; [|done].
  injection Hk as <-. exists g, post. by rewrite consumed_app.
Qed.

Lemma match_here_name_inv s gs :
  Re.match_here name_pattern s = Some gs →
  ∃ g1 g2 post, s = g1 +:+ "_" +:+ g2 +:+ post
                ∧ gs = [g1; g2] ∧ g1 ≠ "" ∧ g2 ≠ ""
                ∧ Py.all_chars Py.is_lower g1 = true
                ∧ Py.all_chars Py.is_lower g2 = true.
Proof.
  unfold Re.match_here, name_pattern. destruct s as [|c1 t]; [done|]. simpl.
  destruct (Py.is_lower c1) eqn:Hc1; [|done].
  intros (a1 & b & -> & Ha1 & Hk)%star_k_inv.
  destruct b as [|u rest]; [done|]. simpl in Hk.
  destruct (Ascii.eqb_spec u "_") as [->|]; [|done].
  destruct rest as [|c2 v]; [done|].
  destruct (Py.is_lower c2) eqn:Hc2; [|done].
  apply star_k_inv in Hk as (a2 & post & -> & Ha2 & Hk).
  injection Hk as <-.
  exists (String c1 a1), (String c2 a2), post.
  rewrite <- (app_cons c1 a1), consumed_app.
  rewrite <- (app_cons c2 a2), consumed_app.
  repeat split; try done; simpl; by rewrite ?Hc1, ?Hc2.
Qed.

Lemma found_emails_inv raw :
  found_emails (Some raw) = (["Incorrect pattern, returning input"], Ok raw)
  ∨ ∃ pre g post,
      raw = pre +:+ "<" +:+ g +:+ ">" +:+ post
      ∧ Py.has_char LF g = false
      ∧ found_emails (Some raw) = ([], Ok g).
Proof.
  unfold found_emails, found_emails_with.
  destruct (Re.search email_pattern raw) as [gs|] eqn:Hs; [right|by left].
  apply search_inv in Hs as (pre & s' & -> & (g & post & -> & -> & Hg)%match_here_email_inv).
  exists pre, g, post. split; [done|]. split; [by apply dot_no_line_feed|done].
Qed.

Lemma name_from_email_inv e :
  name_from_email e = Raise AttributeError
  ∨ ∃ pre g1 g2 post,
      e = pre +:+ g1 +:+ "_" +:+ g2 +:+ post
      ∧ g1 ≠ "" ∧ g2 ≠ ""
      ∧ Py.all_chars Py.is_lower g1 = true
      ∧ Py.all_chars Py.is_lower g2 = true
      ∧ name_from_email e = Ok (Py.capitalize g1 +:+ " " +:+ Py.capitalize g2).
Proof.
  unfold name_from_email, name_from_email_with.
  destruct (Re.search name_pattern e) as [gs|] eqn:Hs; [right|by left].
  apply search_inv in Hs
    as (pre & s' & -> & (g1 & g2 & post & -> & -> & ? & ? & ? & ?)%match_here_name_inv).
  by exists pre, g1, g2, post.
Qed.

(** ** Email Extractor *)

(** X5. [found_emails] with the default pattern never raises.  Either it
    prints its message and returns the input unchanged, or it prints
    nothing and returns a text without line feed that stands in the input
    between a "<" and a ">". *)
Theorem found_emails_delimited (raw : string) :
  found_emails (Some raw) = (["Incorrect pattern, returning input"], Ok raw)
  ∨ ∃ pre g post,
      raw = pre +:+ "<" +:+ g +:+ ">" +:+ post
      ∧ Py.has_char LF g = false
      ∧ found_emails (Some raw) = ([], Ok g).
Proof. apply found_emails_inv. Qed.

(** X6. On an input without "<", or without ">", [found_emails] prints
    its message and returns the input as it is. *)
Theorem found_emails_fail_soft (raw : string) :
  Py.has_char "<" raw = false ∨ Py.has_char ">" raw = false →
  found_emails (Some raw) = (["Incorrect pattern, returning input"], Ok raw).
Proof.
  intros Hno. destruct (found_emails_inv raw) as [?|(pre & g & post & -> & _ & _)]; [done|].
  exfalso. rewrite !has_char_app in Hno. simpl in Hno.
  rewrite !orb_true_r in Hno. by destruct Hno.
Qed.

Lemma found_emails_fail_soft_witness :
  found_emails (Some "ann.lee@x.com")
  = (["Incorrect pattern, returning input"], Ok "ann.lee@x.com").
Proof. apply (found_emails_fail_soft "ann.lee@x.com"). left. reflexivity. Defined.

(** ** Identity Resolver *)

(** X7. [name_from_email] either raises [AttributeError] or returns the
    two capitalised groups, joined with a space, of a place of the email
    where two non-empty runs of lower-case letters stand around a "_"; it
    raises nothing else. *)
Theorem name_from_email_cases (e : string) :
  name_from_email e = Raise AttributeError
  ∨ ∃ pre g1 g2 post,
      e = pre +:+ g1 +:+ "_" +:+ g2 +:+ post
      ∧ g1 ≠ "" ∧ g2 ≠ ""
      ∧ Py.all_chars Py.is_lower g1 = true
      ∧ Py.all_chars Py.is_lower g2 = true
      ∧ name_from_email e = Ok (Py.capitalize g1 +:+ " " +:+ Py.capitalize g2).
Proof. apply name_from_email_inv. Qed.

(** X8. On an email without "_" [name_from_email] raises
    [AttributeError]. *)
Theorem name_from_email_no_underscore (e : string) :
  Py.has_char "_" e = false → name_from_email e = Raise AttributeError.
Proof.
  intros Hno. destruct (name_from_email_inv e) as [?|(pre & g1 & g2 & post & -> & _)]; [done|].
  exfalso. rewrite !has_char_app in Hno. simpl in Hno.
  by rewrite !orb_true_r in Hno.
Qed.

Lemma name_from_email_no_underscore_witness :
  name_from_email "<janedoe42@x.com>" = Raise AttributeError.
Proof. apply (name_from_email_no_underscore "<janedoe42@x.com>"). reflexivity. Defined.

Lemma generate_name_mixed (r : row) f l :
  r !! "firstname" = Some f → r !! "lastname" = Some l →
  (f = VNull ∧ is_string l = true) ∨ (is_string f = true ∧ l = VNull) →
  generate_name r = Raise TypeError.
Proof.
  intros Hf Hl Hmix. unfold generate_name, getitem. rewrite Hf, Hl.
  destruct Hmix as [[-> Hs]|[Hs ->]].
  - by destruct l.
  - destruct f as [|a|]; try done. simpl. by destruct (String.eqb a "").
Qed.

Lemma capitalize_nonempty g rest : g ≠ "" → Py.capitalize g +:+ rest ≠ "".
Proof. by destruct g. Qed.

Lemma name_from_email_nonempty e : name_from_email e ≠ Ok "".
Proof.
  destruct (name_from_email_inv e) as [->|(pre & g1 & g2 & post & _ & Hg1 & _ & _ & _ & ->)];
    [done|].
  intros [= H]. by apply capitalize_nonempty in H.
Qed.

(** X9. When one of the two name fields is null and the other is a
    string, [generate_name] raises [TypeError], whatever the email. *)
Theorem generate_name_one_null (r : row) (f l : value) :
  r !! "firstname" = Some f → r !! "lastname" = Some l →
  (f = VNull ∧ is_string l = true) ∨ (is_string f = true ∧ l = VNull) →
  generate_name r = Raise TypeError.
Proof. apply generate_name_mixed. Qed.

Lemma generate_name_one_null_witness :
  generate_name (contact (VStr "Jane") VNull (VStr "<jane_doe@x.com>") VNull VNull)
  = Raise TypeError.
Proof.
  apply (generate_name_one_null _ (VStr "Jane") VNull); [reflexivity|reflexivity|].
  right. split; reflexivity.
Defined.

(** X10. On a record whose name fields and email are nulls or strings,
    [generate_name] returns the empty identity exactly when the two name
    fields are both null or both empty and the email is null or empty:
    these are the records that the merge drops. *)
Theorem generate_name_empty_iff (r : row) (f l e : value) :
  r !! "firstname" = Some f → r !! "lastname" = Some l →
  r !! "raw_email" = Some e →
  textual f = true → textual l = true → textual e = true →
  generate_name r = Ok "" ↔ names_missing f l = true ∧ missing e = true.
Proof.
  intros Hf Hl He Tf Tl Te. split.
  - intros Hname. destruct (names_missing f l) eqn:Hmiss.
    + split; [done|]. destruct e as [|s|]; try done.
      destruct (String.eqb_spec s "") as [->|Hs]; [done|]. exfalso.
      rewrite (generate_name_fallback r f l s Hf Hl Hmiss He Hs) in Hname.
      by apply name_from_email_nonempty in Hname.
    + exfalso. destruct f as [|a|], l as [|b|]; try done.
      * by rewrite (generate_name_mixed r VNull (VStr b) Hf Hl) in Hname; [|left].
      * by rewrite (generate_name_mixed r (VStr a) VNull Hf Hl) in Hname; [|right].
      * rewrite (generate_name_names r a b Hf Hl Hmiss) in Hname.
        injection Hname as Hname. apply (f_equal String.length) in Hname.
        rewrite !length_app in Hname. simpl in Hname. lia.
  - intros [Hmiss Hmissing]. unfold generate_name, getitem. rewrite Hf, Hl, He.
    unfold names_missing, missing in *.
    destruct f as [|a|], l as [|b|]; simpl in Hmiss;
      rewrite ?andb_false_r in Hmiss; try done.
    + destruct e as [|s|]; simpl in *; try done. by rewrite Hmissing.
    + apply andb_true_iff in Hmiss as [->%String.eqb_eq ->%String.eqb_eq].
      destruct e as [|s|]; simpl in *; try done. by rewrite Hmissing.
Qed.

Lemma generate_name_empty_iff_witness :
  generate_name (contact (VStr "") (VStr "") VNull VNull VNull) = Ok ""
  ↔ names_missing (VStr "") (VStr "") = true ∧ missing VNull = true.
Proof.
  apply (generate_name_empty_iff (contact (VStr "") (VStr "") VNull VNull VNull));
    reflexivity.
Defined.

(** ** Location Resolver *)

(** X11. The names of the countries are compared with case, those of the
    cities without: a place that is "England" or "Ireland" up to case, but
    not exactly, is not recognised. *)
Theorem country_recognition_country_case (place : string) :
  place ≠ "England" → place ≠ "Ireland" →
  Py.lower place = "england" ∨ Py.lower place = "ireland" →
  country_recognition (Some place) = ("Unknown", "Not recognized").
Proof.
  intros HE HI Hlow. unfold country_recognition, country_recognition_in.
  rewrite bool_decide_eq_false_2.
  - unfold scan_locations, scan_cities. simpl.
    by destruct Hlow as [-> | ->].
  - simpl. rewrite !elem_of_cons, elem_of_nil. by_cases.
Qed.

Lemma country_recognition_country_case_witness :
  country_recognition (Some "england") = ("Unknown", "Not recognized").
Proof.
  apply (country_recognition_country_case "england");
    first [by left | intros H; discriminate H].
Defined.

(** The countries that [country_recognition] returns. *)
Lemma country_recognition_countries place :
  country_recognition (Some place) = ("Unknown", "Not recognized")
  ∨ ((country_recognition (Some place)).1 = "England"
     ∨ (country_recognition (Some place)).1 = "Ireland").
Proof.
  unfold country_recognition, country_recognition_in.
  case_bool_decide as Hkey.
  - right. simpl in *. rewrite !elem_of_cons, elem_of_nil in Hkey. by_cases.
  - unfold scan_locations. rewrite scan_locations_from.
    destruct (last (filter (has_city place) load_country_city_database))
      as [entry|] eqn:Hlast; [right|by left].
    apply last_Some_elem_of, list_elem_of_filter in Hlast as [_ Hin].
    simpl. unfold load_country_city_database in Hin.
    rewrite !elem_of_cons, elem_of_nil in Hin.
    destruct Hin as [->|[->|[]]]; by_cases.
Qed.

(** X12. The country that [country_recognition] returns for a place has
    a dialing code in [fix_phone_numbers], "+44" or "+353", when the place
    is recognised; the code is empty exactly when the place is not
    recognised or is null. *)
Theorem recognised_country_has_code (place : option string) (raw : string) :
  ∃ code,
    fix_phone_numbers (Some raw) (Some (country_recognition place).1)
    = phone_format code (phone_digits raw)
    ∧ code ∈ ["+44"; "+353"; ""]
    ∧ (code = "" ↔
       country_recognition place = ("Unknown", "Not recognized") ∨ place = None).
Proof.
  exists (dialing_code (Some (country_recognition place).1)).
  split; [apply fix_phone_numbers_format|].
  destruct place as [place|].
  - destruct (country_recognition_countries place) as [H|[H|H]].
    + rewrite H. simpl. split; [repeat constructor|]. split; [by left|done].
    + rewrite H. split; [repeat constructor|]. split; [done|].
      intros [Heq|?]; [|done]. by rewrite Heq in H.
    + rewrite H. split; [repeat constructor|]. split; [done|].
      intros [Heq|?]; [|done]. by rewrite Heq in H.
  - split; [repeat constructor|]. split; [by right|done].
Qed.

(** ** Merge Engine: the run of [duplicate_management] *)

(** X13. [concat_industries] raises only [TypeError], and does so when
    some contact has more than one industry and one of them is no string,
    a missing one for instance; the labels it returns are those of its
    entries, in their order. *)
Theorem concat_industries_join_error (frame : list row)
    (vals : list (nat * list value)) :
  (existsb unjoinable vals = true →
   concat_industries frame vals = Raise TypeError)
  ∧ (∀ e, concat_industries frame vals = Raise e → e = TypeError)
  ∧ (∀ frame' indexes,
       concat_industries frame vals = Ok (frame', indexes) → indexes = vals.*1).
Proof.
  split; [apply concat_industries_unjoinable|].
  split; [apply concat_industries_exn|apply concat_industries_labels].
Qed.

Lemma concat_industries_join_error_witness :
  concat_industries [] [(0, [VStr "Meat"]); (1, [VStr "Milling"; VNull])]
  = Raise TypeError.
Proof.
  apply (proj1 (concat_industries_join_error []
                  [(0, [VStr "Meat"]); (1, [VStr "Milling"; VNull])])).
  reflexivity.
Defined.

(** The pass stops at a record whose identity cannot be computed. *)
Lemma merge_pass_raises {P : Pandas} cols rows st ir :
  ir ∈ rows → is_ok (generate_name ir.2) = false →
  is_ok (merge_pass cols rows st) = false.
Proof.
  revert st. induction rows as [|[j r] rows IH]; intros st Hin Hbad.
  - by apply elem_of_nil in Hin.
  - simpl. destruct (merge_step cols st (j, r)) as [st'|e] eqn:Hstep; simpl; [|done].
    apply elem_of_cons in Hin as [->|Hin]; [|by apply IH].
    exfalso. destruct st as [frame fr]. simpl in Hstep, Hbad.
    by destruct (generate_name r).
Qed.

(** X14. One record whose identity cannot be computed aborts the whole
    batch: when [generate_name] raises on some record of the frame, for
    whatever reason, [duplicate_management] raises and returns no frame. *)
Theorem unresolved_identity_aborts {P : Pandas} (df : DataFrame) (i : nat) (r : row) :
  data df !! i = Some r → is_ok (generate_name r) = false →
  is_ok (duplicate_management df) = false.
Proof.
  intros Hi Hbad. unfold duplicate_management.
  destruct (convert_createdAt df) as [rows|] eqn:Hc; simpl; [|done].
  apply convert_createdAt_inv in Hc as (_ & -> & _).
  apply elem_of_iterrows in Hi.
  pose proof (merge_pass_raises (columns df) _ (data df, no_records) (i, r) Hi Hbad)
    as Hpass.
  by destruct (merge_pass _ _ _).
Qed.

Lemma unresolved_identity_aborts_witness :
  is_ok (duplicate_management (P := stable)
           (mkDataFrame contact_columns
              [ contact (VStr "Ann") (VStr "Lee") VNull (VStr "Meat") (VTime 20240101);
                contact VNull VNull (VStr "<bob@x.com>") (VStr "Milling")
                        (VTime 20230601) ] eq_refl)) = false.
Proof.
  apply (unresolved_identity_aborts _ 1
           (contact VNull VNull (VStr "<bob@x.com>") (VStr "Milling") (VTime 20230601)));
    reflexivity.
Defined.

(** X15. [df['createdAt']] is read first: a frame without that column
    raises [KeyError], with rows or without.  A frame that has the column
    and in which no record has an identity, every name being the empty
    string, gives the empty frame; so does such a frame without rows. *)
Theorem no_identity_no_record {P : Pandas} (df : DataFrame) :
  ("createdAt" ∉ columns df → duplicate_management df = Raise KeyError)
  ∧ ("createdAt" ∈ columns df → forallb record_skipped (data df) = true →
     duplicate_management df = Ok []).
Proof.
  split.
  { intros Hcol. unfold duplicate_management, convert_createdAt.
    by rewrite bool_decide_eq_false_2. }
  intros Hcol Hall. unfold duplicate_management.
  rewrite convert_createdAt_readable; simpl; [|done|].
  2: { apply forallb_forall. intros r Hr.
       eapply forallb_forall in Hall; [|exact Hr].
       by apply andb_true_iff in Hall as [? _]. }
  rewrite merge_pass_drops_empty.
  destruct (filter _ (iterrows (data df))) as [|[j r] rest] eqn:Hf; [done|].
  exfalso. assert ((j, r) ∈ filter (fun ir => ¬ key_is "" ir) (iterrows (data df)))
    as [Hk Hin]%list_elem_of_filter by (rewrite Hf; left).
  apply elem_of_iterrows in Hin. apply Hk. unfold key_is. simpl.
  pose proof (forallb_lookup _ _ _ _ Hall Hin) as [_ Hr]%andb_true_iff.
  by apply bool_decide_eq_true in Hr.
Qed.

Lemma no_identity_no_record_witness :
  duplicate_management (P := stable) no_frame = Raise KeyError
  ∧ duplicate_management (P := stable)
      (mkDataFrame contact_columns
         [ contact (VStr "") (VStr "") (VStr "") (VStr "Meat") (VTime 20240101);
           contact VNull VNull VNull (VStr "Milling") VNull ] eq_refl) = Ok []
  ∧ duplicate_management (P := stable) (mkDataFrame contact_columns [] eq_refl)
    = Ok [].
Proof.
  split; [|split].
  - apply (proj1 (no_identity_no_record no_frame)). by intros ?%elem_of_nil.
  - apply (proj2 (no_identity_no_record _)); [|reflexivity].
    apply (bool_decide_unpack _). by vm_compute.
  - apply (proj2 (no_identity_no_record _)); [|reflexivity].
    apply (bool_decide_unpack _). by vm_compute.
Defined.

(** X16. A contact that occurs once in the batch is returned as it came:
    its record is in the result under its own label, no cell changed. *)
Theorem lone_record_unchanged {P : Pandas} (df : DataFrame) (i : nat) (rep : row)
    (k : string) :
  well_formed df = true →
  data df !! i = Some rep → generate_name rep = Ok k → k ≠ "" →
  (∀ j r, data df !! j = Some r → generate_name r = Ok k → j = i) →
  ∃ out, duplicate_management df = Ok out ∧ (i, rep) ∈ out.
Proof.
  intros Hwf Hi Hk Hne Hlone.
  destruct (duplicate_management_char df Hwf) as (ks & out & Hrun & _ & Hks & Hout).
  exists out. split; [done|].
  assert ((i, rep) ∈ group k (iterrows (data df))) as Hin.
  { apply elem_of_group. split; [done|]. by apply elem_of_iterrows. }
  assert (k ∈ ks) as [n Hn]%list_elem_of_lookup.
  { apply Hks. split; [done|]. intros Hnil. rewrite Hnil in Hin.
    by apply elem_of_nil in Hin. }
  destruct (Forall2_lookup_l _ _ _ _ _ Hout Hn) as (o & Ho & Hcan).
  apply list_elem_of_lookup_2 in Ho.
  apply canonical_Some in Hcan as (rep' & olders & Hg & Hrow).
  assert (∀ ir, ir ∈ group k (iterrows (data df)) → ir.1 = i) as Hlabels.
  { intros [j r] [Hkey Hjr]%elem_of_group. apply elem_of_iterrows in Hjr.
    by apply (Hlone j r). }
  pose proof (NoDup_group_labels k (data df)) as Hnd.
  rewrite Hg in Hnd, Hlabels, Hin.
  assert (olders = []) as ->.
  { destruct olders as [|[j r] olders]; [done|]. exfalso.
    simpl in Hnd. apply NoDup_cons in Hnd as [Hnotin _]. apply Hnotin.
    pose proof (Hlabels (o.1, rep') ltac:(left)) as H1.
    pose proof (Hlabels (j, r) ltac:(right; left)) as H2.
    simpl in H1, H2. rewrite H1, H2. left. }
  apply list_elem_of_singleton in Hin as [= Hi' <-].
  destruct o as [i' r]. simpl in *. subst i'.
  by rewrite Hrow in Ho.
Qed.

Lemma lone_record_unchanged_witness :
  ∃ out, duplicate_management (P := stable) sample_batch = Ok out
         ∧ (4, contact (VStr "Bob") (VStr "Ray") VNull (VStr "Dairy") VNull) ∈ out.
Proof.
  refine (lone_record_unchanged (P := stable) sample_batch 4 _ "Bob Ray" _ _ _ _ _);
    try reflexivity; [done|].
  intros j r Hj Hk. do 5 (destruct j as [|j]; [simpl in Hj; injection Hj as <-;
    first [reflexivity | by vm_compute in Hk]|]).
  done.
Defined.

(** *** The order of the result *)

Lemma values_insert_old fr name i x inds :
  entries fr !! name = Some (i, inds) →
  (values (mkRecords (keys fr) (<[name := (i, x)]> (entries fr)))).*1
  = (values fr).*1.
Proof.
  intros He. unfold values. simpl.
  induction (keys fr) as [|k ks IH]; [done|]. simpl.
  destruct (decide (k = name)) as [->|Hk].
  - rewrite lookup_insert_eq, He. simpl. by f_equal.
  - rewrite lookup_insert_ne by done.
    destruct (entries fr !! k); simpl; [by f_equal|done].
Qed.

Lemma values_insert_new fr name v :
  keys_bound fr → entries fr !! name = None →
  values (mkRecords (keys fr ++ [name]) (<[name := v]> (entries fr)))
  = values fr ++ [v].
Proof.
  intros Hb He. unfold values. simpl. rewrite omap_app. simpl.
  rewrite lookup_insert_eq. f_equal.
  assert (name ∉ keys fr) as Hnew.
  { intros Hin. apply Hb in Hin as [w Hw]. congruence. }
  induction (keys fr) as [|k ks IH]; [done|]. simpl.
  apply not_elem_of_cons in Hnew as [Hk Hks].
  rewrite lookup_insert_ne by done. specialize (IH Hks).
  destruct (entries fr !! k); [by f_equal|exact IH].
Qed.

Lemma merge_step_labels {P : Pandas} cols frame fr j r frame' fr' :
  keys_bound fr → merge_step cols (frame, fr) (j, r) = Ok (frame', fr') →
  keys_bound fr'
  ∧ ((values fr').*1 = (values fr).*1 ∨ (values fr').*1 = (values fr).*1 ++ [j]).
Proof.
  intros Hb. unfold merge_step.
  destruct (generate_name r) as [name|]; simpl; [|done].
  destruct (String.eqb name ""); [intros [= _ <-]; by_cases|].
  destruct (entries fr !! name) as [[i inds]|] eqn:He.
  - destruct (getitem r "industry") as [ind|]; simpl; [|done].
    destruct (contains j ind inds); intros [= _ <-]; [by_cases|]. split.
    + intros k Hk. simpl in *. apply lookup_insert_is_Some'. right. by apply Hb.
    + left. by eapply values_insert_old.
  - destruct (getitem r "industry") as [ind|]; simpl; [|done].
    intros [= _ <-]. split.
    + intros k. simpl. rewrite elem_of_app, list_elem_of_singleton.
      intros [Hk| ->]; apply lookup_insert_is_Some'; [right; by apply Hb|by left].
    + right. rewrite values_insert_new by done. by rewrite fmap_app.
Qed.

Lemma merge_pass_labels {P : Pandas} cols rows frame fr frame' fr' :
  keys_bound fr → merge_pass cols rows (frame, fr) = Ok (frame', fr') →
  ∃ l, l `sublist_of` rows.*1 ∧ (values fr').*1 = (values fr).*1 ++ l.
Proof.
  revert frame fr. induction rows as [|[j r] rows IH]; intros frame fr Hb.
  - intros [= _ <-]. exists []. split; [done|]. by rewrite app_nil_r.
  - change (merge_pass cols ((j, r) :: rows) (frame, fr))
      with (merge_step cols (frame, fr) (j, r) ≫= merge_pass cols rows).
    destruct (merge_step cols (frame, fr) (j, r)) as [[frame1 fr1]|] eqn:Hstep;
      simpl; [|done].
    intros Hpass. apply merge_step_labels in Hstep as [Hb1 Hlab]; [|done].
    destruct (IH _ _ Hb1 Hpass) as (l & Hl & Heq).
    destruct Hlab as [H1|H1]; rewrite H1 in Heq.
    + exists l. split; [by apply sublist_cons|done].
    + exists (j :: l). split; [by apply sublist_skip|].
      by rewrite Heq, <- app_assoc.
Qed.

Lemma duplicate_management_labels {P : Pandas} df out :
  duplicate_management df = Ok out →
  out.*1 `sublist_of` (iterrows (data df)).*1.
Proof.
  unfold duplicate_management.
  destruct (convert_createdAt df) as [rows|] eqn:Hc; simpl; [|done].
  apply convert_createdAt_inv in Hc as (_ & -> & _).
  destruct (merge_pass _ _ _) as [[frame fr]|] eqn:Hpass; simpl; [|done].
  destruct (concat_industries _ _) as [[frame' indexes]|] eqn:Hcat; simpl; [|done].
  intros Hloc%loc_labels. apply concat_industries_labels in Hcat.
  apply merge_pass_labels in Hpass as (l & Hl & Heq).
  - rewrite Hloc, Hcat, Heq. done.
  - intros k Hk. by apply elem_of_nil in Hk.
Qed.

Lemma sublist_fmap_inv {A B} (f : A → B) (l : list B) (k : list A) :
  l `sublist_of` f <$> k → ∃ k', k' `sublist_of` k ∧ l = f <$> k'.
Proof.
  revert l. induction k as [|x k IH]; intros l; simpl.
  - intros ->%sublist_nil_r. by exists [].
  - intros [Hl|(l' & -> & Hl)]%sublist_cons_r.
    + destruct (IH _ Hl) as (k' & Hk & ->). exists k'. split; [by apply sublist_cons|done].
    + destruct (IH _ Hl) as (k' & Hk & ->). exists (x :: k'). split; [by apply sublist_skip|done].
Qed.

Lemma StronglySorted_sublist {A} (R : relation A) (l k : list A) :
  l `sublist_of` k → StronglySorted R k → StronglySorted R l.
Proof.
  induction 1 as [|x l k Hsub IH|x l k Hsub IH]; intros Hk.
  - constructor.
  - apply StronglySorted_inv in Hk as [Hk Hx]. constructor; [by apply IH|].
    apply Forall_forall. intros y Hy. rewrite Forall_forall in Hx.
    apply Hx. by eapply elem_of_sublist.
  - apply StronglySorted_inv in Hk as [Hk _]. by apply IH.
Qed.

Lemma StronglySorted_created (l k : list (nat * row)) :
  created <$> l = created <$> k →
  StronglySorted listed_before k → StronglySorted listed_before l.
Proof.
  revert k. induction l as [|x l IH]; intros k; [constructor|].
  destruct k as [|y k]; [done|].
  rewrite !fmap_cons. intros [= Hx Hl] [Hk Hy]%StronglySorted_inv.
  constructor; [by eapply IH|].
  apply Forall_forall. intros z [n Hn]%list_elem_of_lookup.
  assert ((created <$> k) !! n = Some (created z)) as Hz
    by by rewrite <- Hl, list_lookup_fmap, Hn.
  rewrite list_lookup_fmap in Hz.
  destruct (k !! n) as [z'|] eqn:Hz'; [|done]. injection Hz as Hz.
  rewrite Forall_forall in Hy. apply list_elem_of_lookup_2 in Hz'.
  unfold listed_before in *. rewrite Hx, <- Hz. by apply Hy.
Qed.

Lemma merged_row_other cols rep olders c :
  c ∉ cols → merged_row cols rep olders !! c = rep !! c.
Proof.
  intros Hc. unfold merged_row. revert rep.
  induction olders as [|r olders IH]; intros rep; simpl; [done|].
  rewrite IH, backfill_row_lookup. case_decide as H; [|done]. by destruct H.
Qed.

(** The instant of a representative is never taken from an older record:
    a missing instant is listed last, so the older ones miss it too. *)
Lemma merged_row_createdAt cols rep i olders :
  readable rep = true →
  StronglySorted listed_before ((i, rep) :: olders) →
  merged_row cols rep olders.*2 !! "createdAt" = rep !! "createdAt".
Proof.
  intros Hread [_ Hold]%StronglySorted_inv.
  destruct (decide ("createdAt" ∈ cols)) as [Hin|Hnot];
    [|by apply merged_row_other].
  unfold readable in Hread.
  destruct (rep !! "createdAt") as [v|] eqn:Hv; [|done].
  rewrite (merged_row_lookup cols rep olders.*2 "createdAt" v) by done.
  f_equal. destruct v as [|s|t]; [|done|done].
  unfold fill. simpl.
  assert (List.find present (omap (.!! "createdAt") olders.*2) = None) as ->; [|done].
  clear -Hold Hv. induction olders as [|[j r] olders IH]; [done|].
  apply Forall_cons in Hold as [Hj Hold]. simpl.
  unfold listed_before, created in Hj. simpl in Hj. rewrite Hv in Hj. simpl in Hj.
  destruct (r !! "createdAt") as [[|s|t]|]; simpl in *; try done; by apply IH.
Qed.

(** Every record of a result has the instant of the input record at its
    label. *)
Lemma result_createdAt {P : Pandas} df out o :
  duplicate_management df = Ok out → o ∈ out →
  ∃ rep, data df !! o.1 = Some rep ∧ o.2 !! "createdAt" = rep !! "createdAt".
Proof.
  intros Hrun Ho.
  destruct (result_records df out Hrun o Ho) as (k & rep & olders & _ & Hg & Hrow).
  destruct (group_head_rows _ _ _ _ _ Hg) as [Hrep _].
  exists rep. split; [done|]. rewrite Hrow.
  rewrite finalize_lookup_ne by done.
  apply (merged_row_createdAt _ _ o.1).
  - destruct (duplicate_management_inv df out Hrun) as (_ & Hread & _).
    by eapply forallb_lookup.
  - rewrite <- Hg. apply group_sorted.
Qed.

(** X17. The result lists the contacts from the most recent to the oldest:
    the labels of the returned records follow one another as they do in
    the frame sorted by [createdAt] descending (whatever the batch, when
    the call returns), and on a batch the engine accepts the returned
    records are themselves in descending order of [createdAt], the missing
    instants last. *)
Theorem result_newest_first {P : Pandas} (df : DataFrame) :
  (∀ out, duplicate_management df = Ok out →
          out.*1 `sublist_of` (iterrows (data df)).*1)
  ∧ (well_formed df = true →
     ∃ out, duplicate_management df = Ok out
            ∧ StronglySorted listed_before out).
Proof.
  split; [apply duplicate_management_labels|].
  intros Hwf. destruct (duplicate_management_returns df Hwf) as [out Hrun].
  exists out. split; [done|].
  destruct (sublist_fmap_inv fst out.*1 (iterrows (data df)))
    as (reps & Hreps & Hlabels); [by apply duplicate_management_labels|].
  apply (StronglySorted_created out reps).
  - apply list_eq. intros n. rewrite !list_lookup_fmap.
    assert (out.*1 !! n = reps.*1 !! n) as Hn by by rewrite Hlabels.
    rewrite !list_lookup_fmap in Hn.
    destruct (out !! n) as [o|] eqn:Ho, (reps !! n) as [[i r]|] eqn:Hr;
      simpl in *; try done.
    injection Hn as Hn. f_equal.
    destruct (result_createdAt df out o Hrun) as (rep & Hrep & Hc);
      [by eapply list_elem_of_lookup_2|].
    assert ((i, r) ∈ iterrows (data df)) as Hin%elem_of_iterrows.
    { eapply elem_of_sublist; [|exact Hreps]. by eapply list_elem_of_lookup_2. }
    rewrite Hn in Hrep. unfold created. simpl. rewrite Hc. by simplify_eq.
  - eapply StronglySorted_sublist; [exact Hreps|apply sort_values_sorted].
Qed.

Lemma result_newest_first_witness :
  ∃ out, duplicate_management (P := stable) sample_batch = Ok out
         ∧ StronglySorted listed_before out.
Proof.
  apply (proj2 (result_newest_first (P := stable) sample_batch)). reflexivity.
Defined.

(** X18. The instant of a contact is never backfilled: on a batch the
    engine accepts, every returned record carries the [createdAt] of the
    input record at its label, also when that instant is missing. *)
Theorem created_at_is_kept {P : Pandas} (df : DataFrame) :
  well_formed df = true →
  ∃ out, duplicate_management df = Ok out
    ∧ ∀ i r, (i, r) ∈ out →
        ∃ rep, data df !! i = Some rep ∧ r !! "createdAt" = rep !! "createdAt".
Proof.
  intros Hwf. destruct (duplicate_management_returns df Hwf) as [out Hrun].
  exists out. split; [done|]. intros i r Ho.
  apply (result_createdAt df out (i, r) Hrun Ho).
Qed.

Lemma created_at_is_kept_witness :
  ∃ out, duplicate_management (P := stable) sample_batch = Ok out
    ∧ ∀ i r, (i, r) ∈ out →
        ∃ rep, data sample_batch !! i = Some rep
               ∧ r !! "createdAt" = rep !! "createdAt".
Proof. apply (created_at_is_kept (P := stable) sample_batch). reflexivity. Defined.

(** X19. The history is joined with [";".join], which takes strings only:
    when two records of one contact carry different industries and one of
    them is no string (a missing industry next to a known one), the call
    raises [TypeError] for the whole batch, although every record of the
    batch was read and merged without error. *)
Theorem mixed_industries_raise {P : Pandas} (df : DataFrame) (i j : nat)
    (ri rj : row) (k : string) :
  forallb record_parses (data df) = true →
  data df !! i = Some ri → data df !! j = Some rj →
  generate_name ri = Ok k → generate_name rj = Ok k → k ≠ "" →
  is_string (industry_of ri) = false → industry_of rj ≠ industry_of ri →
  duplicate_management df = Raise TypeError.
Proof. apply mixed_raises. Qed.

Lemma mixed_industries_raise_witness :
  duplicate_management (P := stable)
    (mkDataFrame contact_columns
       [ contact (VStr "Ann") (VStr "Lee") VNull (VStr "Meat") (VTime 20240101);
         contact (VStr "Ann") (VStr "Lee") VNull VNull (VTime 20230601) ] eq_refl)
  = Raise TypeError.
Proof.
  refine (mixed_industries_raise (P := stable) _ 1 0 _ _ "Ann Lee" _ _ _ _ _ _ _ _);
    try reflexivity; done.
Defined.

(** ** Extraction: the paging of [contact_collection] *)

Lemma collect_pages_spec {A} (post : nat → response A) total page contacts asked :
  ∃ m, total ≤ (page + m) * max_per_page
       ∧ (0 < m → (page + m - 1) * max_per_page < total)
       ∧ collect_pages post total page contacts asked
         = (contacts ++ concat ((fun p => resp_results (post (p * max_per_page)))
                                  <$> seq page m),
            asked ++ ((fun p => p * max_per_page) <$> seq page m)).
Proof.
  funelim (collect_pages post total page contacts asked).
  - destruct H as (m & Hle & Hlt & Hrun). exists (S m).
    unfold max_per_page in *. split; [lia|]. split.
    + intros _. destruct m as [|m]; [|lia]. replace (page + 1 - 1) with page by lia.
      done.
    + rewrite Hrun. simpl. by rewrite <- !app_assoc.
  - exists 0. unfold max_per_page in *. split; [lia|]. split; [lia|].
    simpl. by rewrite !app_nil_r.
Qed.

Lemma concat_pages {A} (all : list A) c n :
  concat ((fun p => take c (drop (p * c) all)) <$> seq 0 n) = take (n * c) all.
Proof.
  induction n as [|n IH]; [done|].
  rewrite seq_S, fmap_app, concat_app, IH. simpl. rewrite app_nil_r.
  rewrite take_take_drop. f_equal. lia.
Qed.

(** X20. [contact_collection] asks for the pages one after the other, the
    first one always: with [total] the total of the first answer, the
    requests are those for after = 0, 100, ..., (n - 1) * 100, where n is
    at least one and is the least number of pages of 100 that hold [total]
    contacts; the contacts collected are the results of these answers put
    end to end, and the totals of the later answers are not read. *)
Theorem contact_collection_pages {A} (post : nat → response A) :
  ∃ n, 1 ≤ n
       ∧ resp_total (post 0) ≤ n * max_per_page
       ∧ (1 < n → (n - 1) * max_per_page < resp_total (post 0))
       ∧ contact_collection post
         = (concat ((fun p => resp_results (post (p * max_per_page))) <$> seq 0 n),
            (fun p => p * max_per_page) <$> seq 0 n).
Proof.
  unfold contact_collection.
  destruct (collect_pages_spec post (resp_total (post 0)) 1
              (resp_results (post 0)) [0]) as (m & Hle & Hlt & Hrun).
  exists (S m). split; [lia|]. split; [exact Hle|]. split.
  - intros Hm. replace (S m - 1) with (1 + m - 1) by lia. apply Hlt. lia.
  - by rewrite Hrun.
Qed.

(** X21. Against a service that holds the contacts [all] and answers each
    request with their number and with at most 100 of them from the place
    asked, [contact_collection] collects every contact once, in the order
    of the service, whatever their number. *)
Theorem contact_collection_complete {A} (all : list A) (post : nat → response A) :
  (∀ after, post after
            = mkResponse (length all) (take max_per_page (drop after all))) →
  (contact_collection post).1 = all.
Proof.
  intros Hpost. unfold contact_collection.
  destruct (collect_pages_spec post (resp_total (post 0)) 1
              (resp_results (post 0)) [0]) as (m & Hle & _ & ->).
  rewrite (Hpost 0) in Hle. rewrite (Hpost 0).
  change (resp_total (mkResponse (length all) _)) with (length all) in Hle.
  cbn [fst resp_results].
  transitivity (concat ((fun p => take max_per_page (drop (p * max_per_page) all))
                          <$> seq 0 (S m))).
  - rewrite <- cons_seq, fmap_cons, concat_cons. f_equal. f_equal.
    apply list_fmap_ext. intros _ p _. by rewrite Hpost.
  - rewrite concat_pages. apply take_ge. lia.
Qed.

Lemma contact_collection_complete_witness :
  (contact_collection
     (fun after => mkResponse (length (seq 0 250))
                     (take max_per_page (drop after (seq 0 250))))).1
  = seq 0 250.
Proof. apply (contact_collection_complete (seq 0 250)). reflexivity. Defined.
